(** * ZBase thread pool and bounded task pool

    A small-step model of [zbase::thread_pool] and [zbase::task_pool]
    (the header with the two classes), with the theorems that settle the
    properties stated about them.

    The header defines the submission side completely: [pack_shared_task],
    [enqueue], [size_unlocked], [thread_pool::wait_to_enqueue], and every
    member of [task_pool] except [reset].  These are transcribed statement by
    statement.  The worker loop, the constructor and destructor of
    [thread_pool] and [task_pool::reset] are only declared there; they are
    modelled from the specification and every such definition says so.

    Threads are interleaved by an explicit schedule: a list of events, each
    of which lets one thread perform its next atomic statement, wakes a
    thread blocked on a condition variable, or advances the clock. *)

From stdpp Require Import list strings.

Set Default Proof Using "Type".

(** ** Values, futures and packaged tasks *)

Definition tid := nat.
Definition handle := nat.
Definition value := nat.
Definition exn := nat.

(** What running a callable yields: a value, or a raised failure. *)
Inductive outcome :=
| returned (v : value)
| raised (e : exn).

(** [std::bind(f, args...)]: a closure without arguments. *)
Definition callable := unit → outcome.

(** The shared states of the futures, indexed by handle; [None] is "not ready". *)
Abbreviation shared_states := (list (option outcome)).

(** [std::packaged_task<R()>]: the stored callable and its shared state. *)
Record packaged_task := {
  shared_state : handle;
  stored_task : callable
}.

(** How a call of a [std::function<void()>] ends. *)
Inductive completion :=
| normal
| escaped (e : exn).

(** [packaged_task::operator()]: the callable runs; its value or the
    exception it raised is stored in the shared state, which becomes ready.
    Nothing propagates to the caller. *)
Definition packaged_task_invoke (task : packaged_task) (fs : shared_states)
  : shared_states * completion :=
  match stored_task task () with
  | returned v => (<[shared_state task := Some (returned v)]> fs, normal)
  | raised e => (<[shared_state task := Some (raised e)]> fs, normal)
  end.

(** [future::get] on a ready shared state gives the value back or rethrows
    the stored failure; on a shared state that is not ready it blocks. *)
Definition future_get (fs : shared_states) (h : handle) : option outcome :=
  match fs !! h with
  | Some (Some o) => Some o
  | _ => None
  end.

(** The element type of [tasks], [std::function<void()>].  The only closure
    the header ever stores is the lambda of l.109-111, which captures the
    shared pointer [task] and invokes the packaged task it points to. *)
Inductive closure :=
| run_task (task : packaged_task).

Definition closure_call (c : closure) (fs : shared_states)
  : shared_states * completion :=
  match c with
  | run_task task => packaged_task_invoke task fs
  end.

Definition closure_handle (c : closure) : handle :=
  match c with
  | run_task task => shared_state task
  end.

(** ** The two classes *)

(** [class thread_pool] (l.41-49).  [tasks] is a [std::queue]: [push] adds at
    the back (the end of the list), [front]/[pop] take the head. *)
Record thread_pool := {
  workers : list tid;
  tasks : list closure;
  queue_mutex : option tid;
  stopped : bool
}.

(** [class task_pool : private thread_pool] (l.123-128).  The two condition
    variables carry no data of their own: which threads wait on them is read
    off the thread table. *)
Record task_pool := {
  base : thread_pool;
  max_tasks : nat
}.

Definition set_tasks (q : list closure) (tp : thread_pool) : thread_pool :=
  {| workers := workers tp; tasks := q;
     queue_mutex := queue_mutex tp; stopped := stopped tp |}.

Definition set_mutex (o : option tid) (tp : thread_pool) : thread_pool :=
  {| workers := workers tp; tasks := tasks tp;
     queue_mutex := o; stopped := stopped tp |}.

Definition set_stopped (b : bool) (tp : thread_pool) : thread_pool :=
  {| workers := workers tp; tasks := tasks tp;
     queue_mutex := queue_mutex tp; stopped := b |}.

Definition map_base (g : thread_pool → thread_pool) (P : task_pool) : task_pool :=
  {| base := g (base P); max_tasks := max_tasks P |}.

(** [lck.owns_lock()] for the [unique_lock] of thread [t]. *)
Definition owns_lock (t : tid) (tp : thread_pool) : bool :=
  bool_decide (queue_mutex tp = Some t).

(** ** Statements *)

(** A wait predicate reads the pool and the caller's environment; the
    environment is a function of the clock. *)
Definition predicate := task_pool → nat → bool.

(** What a caller-supplied waiter can do to the pool: it only has the
    [unique_lock] it is given.  (A wait on a condition variable of the
    caller's own is an [unlock] followed by a [lock].) *)
Inductive lck_op :=
| op_unlock
| op_lock.

(** The waiters ([_fWaiter]) that occur in the header, and caller-supplied
    ones. *)
Inductive waiter :=
| noop_waiter                                (* l.71 *)
| cv_wait (p : predicate)                    (* l.167-170 *)
| cv_wait_for (d : nat) (p : predicate)      (* l.180-183 *)
| cv_wait_until (abs : nat) (p : predicate)  (* l.194-197 *)
| capacity_loop (wait : waiter)              (* l.227-230 *)
| user_waiter (ops : list lck_op).

Inductive stmt :=
(* the body of thread_pool::wait_to_enqueue *)
| s_pack (f : callable)
| s_lock
| s_wait (wait : waiter)
| s_assert_owns
| s_push
| s_unlock
| s_notify_one
| s_return
(* inside the waiters *)
| s_while_full (wait : waiter)
| s_pred (p : predicate) (deadline : option nat)
| s_blocked (p : predicate) (deadline : option nat)
| s_relock (p : predicate) (deadline : option nat) (timed_out : bool)
| s_user (op : lck_op)
(* task_pool::reset *)
| s_drain
| s_stop
| s_join.

(** The body of a waiter, entered at time [now].
    - [cv.wait(lck, p)] is [while (!p()) wait(lck);]
    - [cv.wait_until(lck, abs, p)] is
      [while (!p()) if (wait_until(lck, abs) == timeout) return p(); return true;]
    - [cv.wait_for(lck, d, p)] is [wait_until(lck, now + d, p)]
    and the lambdas of [poll_for] and [poll_until] drop the result. *)
Definition waiter_body (now : nat) (w : waiter) : list stmt :=
  match w with
  | noop_waiter => []
  | cv_wait p => [s_pred p None]
  | cv_wait_for d p => [s_pred p (Some (now + d))]
  | cv_wait_until abs p => [s_pred p (Some abs)]
  | capacity_loop wait => [s_while_full wait]
  | user_waiter ops => s_user <$> ops
  end.

(** ** The member functions of the header *)

Module ThreadPool.

(** l.81-85 *)
Definition size_unlocked (tp : thread_pool) : nat := length (tasks tp).

(** l.33-39: a new packaged task around the bound callable, with a fresh
    shared state. *)
Definition pack_shared_task (f : callable) (fs : shared_states)
  : packaged_task * shared_states :=
  ({| shared_state := length fs; stored_task := f |}, fs ++ [None]).

(** l.96-115 *)
Definition wait_to_enqueue (wait : waiter) (f : callable) : list stmt :=
  [ s_pack f;          (* l.100-102 *)
    s_lock;            (* l.105 *)
    s_wait wait;       (* l.107 *)
    s_assert_owns;     (* l.108 *)
    s_push;            (* l.109-111 *)
    s_unlock;          (* l.112 *)
    s_notify_one;      (* l.113 *)
    s_return ].        (* l.114 *)

(** l.67-73 *)
Definition enqueue (f : callable) : list stmt :=
  wait_to_enqueue noop_waiter f.

End ThreadPool.

Module TaskPool.

(** l.141-145 *)
Definition can_enqueue_unlocked (P : task_pool) : bool :=
  ThreadPool.size_unlocked (base P) <? max_tasks P.

(** l.147-151 *)
Definition get_max_task_num (P : task_pool) : nat := max_tasks P.

(** l.221-231 *)
Definition wait_to_enqueue (wait : waiter) (f : callable) : list stmt :=
  ThreadPool.wait_to_enqueue (capacity_loop wait) f.

(** The predicate built at l.169, l.182 and l.196. *)
Definition poll_predicate (poller : nat → bool) : predicate :=
  λ P now, poller now && can_enqueue_unlocked P.

(** l.162-172.  The unqualified [wait_to_enqueue] in a member of
    [task_pool] is [task_pool::wait_to_enqueue], which hides the one of
    the base class. *)
Definition poll (poller : nat → bool) (f : callable) : list stmt :=
  wait_to_enqueue (cv_wait (poll_predicate poller)) f.

(** l.174-185 *)
Definition poll_for (poller : nat → bool) (duration : nat) (f : callable)
  : list stmt :=
  wait_to_enqueue (cv_wait_for duration (poll_predicate poller)) f.

(** l.187-199 *)
Definition poll_until (poller : nat → bool) (abs_time : nat) (f : callable)
  : list stmt :=
  wait_to_enqueue (cv_wait_until abs_time (poll_predicate poller)) f.

(** l.201-209 *)
Definition wait (f : callable) : list stmt :=
  poll (λ _, true) f.

(** l.211-219 *)
Definition wait_for (duration : nat) (f : callable) : list stmt :=
  poll_for (λ _, true) duration f.

(** l.233-241 *)
Definition wait_until (abs_time : nat) (f : callable) : list stmt :=
  poll_until (λ _, true) abs_time f.

(** Modelled from the spec: [task_pool::reset] is declared at l.157-158 and
    defined elsewhere.  It blocks until the queued and in-flight tasks are
    complete, then destroys the underlying thread pool (set the stop flag,
    wake and join the workers) and constructs it again. *)
Definition reset : list stmt :=
  [ s_drain; s_stop; s_join ].

End TaskPool.

(** ** Threads and the global state *)

(** Modelled from the spec: the worker loop is defined outside the header.
    A worker acquires the lock and waits on [condition] until the queue is
    non-empty or the stop flag is set; if the queue is empty (so the flag is
    set) it terminates; otherwise it pops the front task, releases the lock,
    runs the task outside the lock and loops.  A closure that let an
    exception escape would terminate the worker thread. *)
Inductive worker_phase :=
| wk_lock
| wk_test
| wk_blocked
| wk_relock
| wk_popped (c : closure)
| wk_exec (c : closure)
| wk_exited
| wk_terminated (e : exn).

(** A client thread runs its remaining statements; [cur] holds the local
    [task] of the call of wait_to_enqueue in progress.  A client is [dead]
    once an exception has left its call or its assertion has failed. *)
Inductive thread :=
| worker (ph : worker_phase)
| client (cur : option packaged_task) (code : list stmt)
| dead.

Inductive wake_kind :=
| by_notify
| by_spurious
| by_timeout.

(** What a thread did in one step; the history of a run is the list of
    these, newest first.  No step reads the history.  [locked] records
    whether the thread owned the mutex when it evaluated the condition;
    [act_relock timed_out] is the lock taken again after a wait on a
    condition variable, [timed_out] telling whether the wait ended by its
    deadline; [act_expired b] is the return of a timed wait whose deadline has
    passed, [b] being its last evaluation of the predicate. *)
Inductive action :=
| act_pack (h : handle)
| act_lock
| act_capacity (b : bool) (locked : bool)
| act_pred (b : bool) (locked : bool)
| act_expired (b : bool)
| act_block
| act_wake (k : wake_kind)
| act_relock (timed_out : bool)
| act_user (op : lck_op)
| act_throw
| act_assert (b : bool)
| act_push (h : handle)
| act_unlock
| act_notify_one (woken : option tid)
| act_return (h : handle)
| act_pop (h : handle)
| act_exec (h : handle) (r : completion)
| act_exit
| act_drained
| act_stop
| act_discard (h : handle)
| act_rebuilt.

Record state := {
  pool : task_pool;
  futures : shared_states;
  threads : list thread;
  notified : list tid;
  now : nat;
  aborted : bool;
  history : list (tid * action)
}.

Definition with_pool (g : task_pool → task_pool) (s : state) : state :=
  {| pool := g (pool s); futures := futures s; threads := threads s;
     notified := notified s; now := now s; aborted := aborted s;
     history := history s |}.

Definition with_base (g : thread_pool → thread_pool) (s : state) : state :=
  with_pool (map_base g) s.

Definition set_futures (fs : shared_states) (s : state) : state :=
  {| pool := pool s; futures := fs; threads := threads s;
     notified := notified s; now := now s; aborted := aborted s;
     history := history s |}.

Definition set_threads (ths : list thread) (s : state) : state :=
  {| pool := pool s; futures := futures s; threads := ths;
     notified := notified s; now := now s; aborted := aborted s;
     history := history s |}.

Definition set_thread (t : tid) (th : thread) (s : state) : state :=
  set_threads (<[t := th]> (threads s)) s.

Definition set_notified (l : list tid) (s : state) : state :=
  {| pool := pool s; futures := futures s; threads := threads s;
     notified := l; now := now s; aborted := aborted s;
     history := history s |}.

Definition tick (s : state) : state :=
  {| pool := pool s; futures := futures s; threads := threads s;
     notified := notified s; now := S (now s); aborted := aborted s;
     history := history s |}.

Definition abort (s : state) : state :=
  {| pool := pool s; futures := futures s; threads := threads s;
     notified := notified s; now := now s; aborted := true;
     history := history s |}.

Definition log (t : tid) (a : action) (s : state) : state :=
  {| pool := pool s; futures := futures s; threads := threads s;
     notified := notified s; now := now s; aborted := aborted s;
     history := (t, a) :: history s |}.

Definition log_all (evs : list (tid * action)) (s : state) : state :=
  {| pool := pool s; futures := futures s; threads := threads s;
     notified := notified s; now := now s; aborted := aborted s;
     history := reverse evs ++ history s |}.

(** ** Condition variables *)

(** A worker blocks on [condition], a client on [enqueue_condition]. *)
Definition waits_on_condition (th : thread) : bool :=
  match th with
  | worker wk_blocked => true
  | _ => false
  end.

Definition waits_on_enqueue_condition (th : thread) : bool :=
  match th with
  | client _ (s_blocked _ _ :: _) => true
  | _ => false
  end.

(** The threads, from [i] on, that satisfy [sel] and have no notification
    pending. *)
Fixpoint waiters_from (sel : thread → bool) (pending : list tid) (i : tid)
    (ths : list thread) : list tid :=
  match ths with
  | [] => []
  | th :: rest =>
      if sel th && negb (bool_decide (i ∈ pending))
      then i :: waiters_from sel pending (S i) rest
      else waiters_from sel pending (S i) rest
  end.

Definition waiters (sel : thread → bool) (s : state) : list tid :=
  waiters_from sel (notified s) 0 (threads s).

(** [notify_one] unblocks one of the waiting threads, if there is one; the
    model takes the first in the thread table. *)
Definition notify_one (sel : thread → bool) (s : state) : option tid :=
  head (waiters sel s).

Definition add_notified (woken : option tid) (s : state) : state :=
  set_notified (option_list woken ++ notified s) s.

Definition notify_all (sel : thread → bool) (s : state) : state :=
  set_notified (waiters sel s ++ notified s) s.

Definition clear_notified (t : tid) (s : state) : state :=
  set_notified (filter (λ u, u ≠ t) (notified s)) s.

(** ** The mutex *)

(** [lock()]: possible only when the mutex is free. *)
Definition acquire (t : tid) (tp : thread_pool) : option thread_pool :=
  match queue_mutex tp with
  | None => Some (set_mutex (Some t) tp)
  | Some _ => None
  end.

(** The destructor of a [unique_lock], and [unlock()] by the owner: the
    mutex is released if this thread owns it. *)
Definition release (t : tid) (tp : thread_pool) : thread_pool :=
  if owns_lock t tp then set_mutex None tp else tp.

(** ** Construction *)

(** Modelled from the spec: the constructor of [thread_pool] is declared at
    l.57 and defined elsewhere; it spawns [max(workerCount, 1)] workers.
    [first] is the thread id of the first of them. *)
Definition thread_pool_new (n : nat) (first : tid) : thread_pool :=
  {| workers := seq first (n `max` 1); tasks := [];
     queue_mutex := None; stopped := false |}.

(** The threads that [thread_pool_new n first] starts. *)
Definition spawned (n : nat) : list thread :=
  replicate (n `max` 1) (worker wk_lock).

(** l.134-138 *)
Definition task_pool_new (n : nat) (first : tid) : task_pool :=
  {| base := thread_pool_new (n `max` 1) first; max_tasks := n `max` 1 |}.

(** A pool constructed with worker count [n], its workers, and one client
    thread for each program of [programs]. *)
Definition boot (n : nat) (programs : list (list stmt)) : state :=
  {| pool := task_pool_new n 0; futures := [];
     threads := spawned (n `max` 1) ++ (client None <$> programs);
     notified := []; now := 0; aborted := false; history := [] |}.

(** ** Steps of a client *)

Definition holds_task (th : thread) : bool :=
  match th with
  | worker (wk_popped _) | worker (wk_exec _) => true
  | _ => false
  end.

Definition has_exited (s : state) (w : tid) : bool :=
  match threads s !! w with
  | Some (worker wk_exited) | Some (worker (wk_terminated _)) => true
  | _ => false
  end.

Definition client_step (t : tid) (cur : option packaged_task)
    (st : stmt) (k : list stmt) (s : state) : option state :=
  let tp := base (pool s) in
  match st with
  | s_pack f =>
      let r := ThreadPool.pack_shared_task f (futures s) in
      Some (log t (act_pack (shared_state r.1))
             (set_thread t (client (Some r.1) k) (set_futures r.2 s)))
  | s_lock =>
      tp' ← acquire t tp;
      Some (log t act_lock
             (set_thread t (client cur k) (with_base (λ _, tp') s)))
  | s_wait wait =>
      Some (set_thread t (client cur (waiter_body (now s) wait ++ k)) s)
  | s_assert_owns =>
      if owns_lock t tp
      then Some (log t (act_assert true) (set_thread t (client cur k) s))
      else Some (log t (act_assert false) (set_thread t dead (abort s)))
  | s_push =>
      task ← cur;
      Some (log t (act_push (shared_state task))
             (set_thread t (client cur k)
               (with_base (set_tasks (tasks tp ++ [run_task task])) s)))
  | s_unlock =>
      Some (log t act_unlock
             (set_thread t (client cur k) (with_base (release t) s)))
  | s_notify_one =>
      let woken := notify_one waits_on_condition s in
      Some (log t (act_notify_one woken)
             (set_thread t (client cur k) (add_notified woken s)))
  | s_return =>
      task ← cur;
      Some (log t (act_return (shared_state task))
             (set_thread t (client None k) s))
  | s_while_full wait =>
      if TaskPool.can_enqueue_unlocked (pool s)
      then Some (log t (act_capacity true (owns_lock t tp))
                  (set_thread t (client cur k) s))
      else Some (log t (act_capacity false (owns_lock t tp))
                  (set_thread t (client cur (s_wait wait :: s_while_full wait :: k)) s))
  | s_pred p deadline =>
      if p (pool s) (now s)
      then Some (log t (act_pred true (owns_lock t tp))
                  (set_thread t (client cur k) s))
      else if owns_lock t tp
      then Some (log t act_block (log t (act_pred false true)
                  (set_thread t (client cur (s_blocked p deadline :: k))
                    (with_base (release t) s))))
      else None
  | s_blocked _ _ => None
  | s_relock p deadline timed_out =>
      tp' ← acquire t tp;
      let s' := log t (act_relock timed_out) (with_base (λ _, tp') s) in
      if timed_out
      then Some (log t (act_expired (p (pool s') (now s')))
                  (set_thread t (client cur k) s'))
      else Some (set_thread t (client cur (s_pred p deadline :: k)) s')
  | s_user op_unlock =>
      if owns_lock t tp
      then Some (log t (act_user op_unlock)
                  (set_thread t (client cur k) (with_base (release t) s)))
      else Some (log t act_throw (set_thread t dead s))
  | s_user op_lock =>
      if owns_lock t tp
      then Some (log t act_throw
                  (set_thread t dead (with_base (release t) s)))
      else
        tp' ← acquire t tp;
        Some (log t (act_user op_lock)
               (set_thread t (client cur k) (with_base (λ _, tp') s)))
  | s_drain =>
      if bool_decide (tasks tp = []) && forallb (λ th, negb (holds_task th)) (threads s)
      then Some (log t act_drained (set_thread t (client cur k) s))
      else None
  | s_stop =>
      if bool_decide (queue_mutex tp = None)
      then Some (log t act_stop
                  (set_thread t (client cur k)
                    (notify_all waits_on_condition
                      (with_base (set_stopped true) s))))
      else None
  | s_join =>
      if bool_decide (queue_mutex tp = None) && forallb (has_exited s) (workers tp)
      then
        let n := length (workers tp) in
        Some (log t act_rebuilt
               (log_all ((λ c, (t, act_discard (closure_handle c))) <$> tasks tp)
                 (set_thread t (client cur k)
                   (set_threads (threads s ++ spawned n)
                     (with_base (λ _, thread_pool_new n (length (threads s))) s)))))
      else None
  end.

(** ** Steps of a worker *)

(** Modelled from the spec: see [worker_phase].  After a task is complete
    the submitters blocked on [enqueue_condition] are notified (the wake
    discipline of the bounded pool). *)
Definition worker_step (t : tid) (ph : worker_phase) (s : state) : option state :=
  let tp := base (pool s) in
  match ph with
  | wk_lock =>
      tp' ← acquire t tp;
      Some (log t act_lock (set_thread t (worker wk_test) (with_base (λ _, tp') s)))
  | wk_test =>
      match tasks tp with
      | c :: q =>
          Some (log t (act_pop (closure_handle c))
                 (set_thread t (worker (wk_popped c)) (with_base (set_tasks q) s)))
      | [] =>
          if stopped tp
          then Some (log t act_exit
                      (set_thread t (worker wk_exited) (with_base (release t) s)))
          else Some (log t act_block
                      (set_thread t (worker wk_blocked) (with_base (release t) s)))
      end
  | wk_blocked => None
  | wk_relock =>
      tp' ← acquire t tp;
      Some (log t (act_relock false)
             (set_thread t (worker wk_test) (with_base (λ _, tp') s)))
  | wk_popped c =>
      Some (log t act_unlock
             (set_thread t (worker (wk_exec c)) (with_base (release t) s)))
  | wk_exec c =>
      let r := (closure_call c (futures s)).2 in
      let s' := log t (act_exec (closure_handle c) r)
                  (set_futures (closure_call c (futures s)).1 s) in
      match r with
      | normal =>
          Some (set_thread t (worker wk_lock)
                 (notify_all waits_on_enqueue_condition s'))
      | escaped e => Some (set_thread t (worker (wk_terminated e)) s')
      end
  | wk_exited | wk_terminated _ => None
  end.

(** ** Waking a blocked thread *)

Definition may_wake (k : wake_kind) (t : tid) (deadline : option nat)
    (s : state) : bool :=
  match k with
  | by_notify => bool_decide (t ∈ notified s)
  | by_spurious => true
  | by_timeout =>
      match deadline with
      | Some d => d <=? now s
      | None => false
      end
  end.

Definition wake (k : wake_kind) (t : tid) (s : state) : option state :=
  match threads s !! t with
  | Some (worker wk_blocked) =>
      if may_wake k t None s
      then Some (log t (act_wake k)
                  (set_thread t (worker wk_relock) (clear_notified t s)))
      else None
  | Some (client cur (s_blocked p deadline :: k')) =>
      if may_wake k t deadline s
      then Some (log t (act_wake k)
                  (set_thread t
                    (client cur
                      (s_relock p deadline
                         match k with by_timeout => true | _ => false end :: k'))
                    (clear_notified t s)))
      else None
  | _ => None
  end.

(** ** Schedules *)

Inductive event :=
| ev_tick
| ev_run (t : tid)
| ev_spurious (t : tid)
| ev_timeout (t : tid).

Definition run_thread (t : tid) (s : state) : option state :=
  match threads s !! t with
  | Some (worker wk_blocked) => wake by_notify t s
  | Some (client _ (s_blocked _ _ :: _)) => wake by_notify t s
  | Some (worker ph) => worker_step t ph s
  | Some (client cur (st :: k)) => client_step t cur st k s
  | _ => None
  end.

(** One event; an event that is not enabled leaves the state as it is, and
    nothing happens after a failed assertion. *)
Definition step (e : event) (s : state) : state :=
  if aborted s then s
  else match e with
       | ev_tick => tick s
       | ev_run t => default s (run_thread t s)
       | ev_spurious t => default s (wake by_spurious t s)
       | ev_timeout t => default s (wake by_timeout t s)
       end.

Fixpoint run (sched : list event) (s : state) : state :=
  match sched with
  | [] => s
  | e :: rest => run rest (step e s)
  end.

(** ** One step, seen from the thread that takes it *)

Definition event_thread (e : event) : option tid :=
  match e with
  | ev_tick => None
  | ev_run t | ev_spurious t | ev_timeout t => Some t
  end.

(** The actions of thread [t] in a history, newest first. *)
Definition own (t : tid) (H : list (tid * action)) : list action :=
  (filter (λ e, e.1 = t) H).*2.

(** What a step of a thread reads and writes besides the flags of the
    condition variables: whether it owns the mutex, the queue, the shared
    states, and its own control state. *)
Record view := View {
  v_owns : bool;
  v_tasks : list closure;
  v_futures : shared_states;
  v_thread : thread
}.

Definition view_of (t : tid) (th : thread) (s : state) : view :=
  View (owns_lock t (base (pool s))) (tasks (base (pool s))) (futures s) th.

Definition is_timeout (k : wake_kind) : bool :=
  match k with
  | by_timeout => true
  | _ => false
  end.

(** [ltrans m v acts v']: a thread with view [v] of a pool of capacity [m]
    can take a step that logs [acts] (newest first) and leaves view [v']. *)
Inductive ltrans (m : nat) : view → list action → view → Prop :=
| lt_pack o q fs cur f k :
    ltrans m (View o q fs (client cur (s_pack f :: k)))
      [act_pack (length fs)]
      (View o q (fs ++ [None])
         (client (Some {| shared_state := length fs; stored_task := f |}) k))
| lt_lock q fs cur k :
    ltrans m (View false q fs (client cur (s_lock :: k)))
      [act_lock] (View true q fs (client cur k))
| lt_wait o q fs cur w k clk :
    ltrans m (View o q fs (client cur (s_wait w :: k)))
      [] (View o q fs (client cur (waiter_body clk w ++ k)))
| lt_assert q fs cur k :
    ltrans m (View true q fs (client cur (s_assert_owns :: k)))
      [act_assert true] (View true q fs (client cur k))
| lt_assert_fail q fs cur k :
    ltrans m (View false q fs (client cur (s_assert_owns :: k)))
      [act_assert false] (View false q fs dead)
| lt_push o q fs task k :
    ltrans m (View o q fs (client (Some task) (s_push :: k)))
      [act_push (shared_state task)]
      (View o (q ++ [run_task task]) fs (client (Some task) k))
| lt_unlock o q fs cur k :
    ltrans m (View o q fs (client cur (s_unlock :: k)))
      [act_unlock] (View false q fs (client cur k))
| lt_notify o q fs cur k woken :
    ltrans m (View o q fs (client cur (s_notify_one :: k)))
      [act_notify_one woken] (View o q fs (client cur k))
| lt_return o q fs task k :
    ltrans m (View o q fs (client (Some task) (s_return :: k)))
      [act_return (shared_state task)] (View o q fs (client None k))
| lt_room o q fs cur w k :
    length q < m →
    ltrans m (View o q fs (client cur (s_while_full w :: k)))
      [act_capacity true o] (View o q fs (client cur k))
| lt_full o q fs cur w k :
    m ≤ length q →
    ltrans m (View o q fs (client cur (s_while_full w :: k)))
      [act_capacity false o]
      (View o q fs (client cur (s_wait w :: s_while_full w :: k)))
| lt_pred_true o q fs cur p dl k P clk :
    tasks (base P) = q → max_tasks P = m → p P clk = true →
    ltrans m (View o q fs (client cur (s_pred p dl :: k)))
      [act_pred true o] (View o q fs (client cur k))
| lt_pred_false q fs cur p dl k P clk :
    tasks (base P) = q → max_tasks P = m → p P clk = false →
    ltrans m (View true q fs (client cur (s_pred p dl :: k)))
      [act_block; act_pred false true]
      (View false q fs (client cur (s_blocked p dl :: k)))
| lt_wake o q fs cur p dl k kind :
    (kind = by_timeout → is_Some dl) →
    ltrans m (View o q fs (client cur (s_blocked p dl :: k)))
      [act_wake kind]
      (View o q fs (client cur (s_relock p dl (is_timeout kind) :: k)))
| lt_relock q fs cur p dl k :
    ltrans m (View false q fs (client cur (s_relock p dl false :: k)))
      [act_relock false] (View true q fs (client cur (s_pred p dl :: k)))
| lt_relock_timeout q fs cur p dl k b :
    ltrans m (View false q fs (client cur (s_relock p dl true :: k)))
      [act_expired b; act_relock true] (View true q fs (client cur k))
| lt_user_unlock q fs cur k :
    ltrans m (View true q fs (client cur (s_user op_unlock :: k)))
      [act_user op_unlock] (View false q fs (client cur k))
| lt_user_unlock_throw q fs cur k :
    ltrans m (View false q fs (client cur (s_user op_unlock :: k)))
      [act_throw] (View false q fs dead)
| lt_user_lock q fs cur k :
    ltrans m (View false q fs (client cur (s_user op_lock :: k)))
      [act_user op_lock] (View true q fs (client cur k))
| lt_user_lock_throw q fs cur k :
    ltrans m (View true q fs (client cur (s_user op_lock :: k)))
      [act_throw] (View false q fs dead)
| lt_drain o fs cur k :
    ltrans m (View o [] fs (client cur (s_drain :: k)))
      [act_drained] (View o [] fs (client cur k))
| lt_stop q fs cur k :
    ltrans m (View false q fs (client cur (s_stop :: k)))
      [act_stop] (View false q fs (client cur k))
| lt_join q fs cur k :
    ltrans m (View false q fs (client cur (s_join :: k)))
      (act_rebuilt :: reverse (act_discard ∘ closure_handle <$> q))
      (View false [] fs (client cur k))
| lt_wk_lock q fs :
    ltrans m (View false q fs (worker wk_lock))
      [act_lock] (View true q fs (worker wk_test))
| lt_wk_pop o c q fs :
    ltrans m (View o (c :: q) fs (worker wk_test))
      [act_pop (closure_handle c)] (View o q fs (worker (wk_popped c)))
| lt_wk_exit o fs :
    ltrans m (View o [] fs (worker wk_test))
      [act_exit] (View false [] fs (worker wk_exited))
| lt_wk_block o fs :
    ltrans m (View o [] fs (worker wk_test))
      [act_block] (View false [] fs (worker wk_blocked))
| lt_wk_wake o q fs kind :
    ltrans m (View o q fs (worker wk_blocked))
      [act_wake kind] (View o q fs (worker wk_relock))
| lt_wk_relock q fs :
    ltrans m (View false q fs (worker wk_relock))
      [act_relock false] (View true q fs (worker wk_test))
| lt_wk_unlock o c q fs :
    ltrans m (View o q fs (worker (wk_popped c)))
      [act_unlock] (View false q fs (worker (wk_exec c)))
| lt_wk_exec o c q fs :
    ltrans m (View o q fs (worker (wk_exec c)))
      [act_exec (closure_handle c) normal]
      (View o q (closure_call c fs).1 (worker wk_lock)).

(** How a step changes the state: not at all in what the threads can see,
    or as one [ltrans] step of thread [t]. *)
Definition silent (s s' : state) : Prop :=
  threads s' = threads s ∧ pool s' = pool s ∧ futures s' = futures s
  ∧ history s' = history s.

Definition moved (t : tid) (s s' : state) : Prop :=
  ∃ th acts v' extra,
    threads s !! t = Some th
    ∧ ltrans (max_tasks (pool s)) (view_of t th s) acts v'
    ∧ threads s' = <[t := v_thread v']> (threads s) ++ extra
    ∧ Forall (λ th', th' = worker wk_lock) extra
    ∧ tasks (base (pool s')) = v_tasks v'
    ∧ futures s' = v_futures v'
    ∧ history s' = ((λ a, (t, a)) <$> acts) ++ history s
    ∧ max_tasks (pool s') = max_tasks (pool s)
    ∧ owns_lock t (base (pool s')) = v_owns v'
    ∧ (∀ u, u ≠ t →
         owns_lock u (base (pool s')) = owns_lock u (base (pool s))).

(** ** Programs and systems *)

(** A call of a client: a submission through [thread_pool::wait_to_enqueue]
    with some waiter, or [task_pool::reset]. *)
Inductive call :=
| submit (wait : waiter) (f : callable)
| rebuild.

Definition call_code (c : call) : list stmt :=
  match c with
  | submit wait f => ThreadPool.wait_to_enqueue wait f
  | rebuild => TaskPool.reset
  end.

Definition program (cs : list call) : list stmt := cs ≫= call_code.

(** A pool of [n] workers and one client thread for each list of calls. *)
Definition system (n : nat) (clients : list (list call)) : state :=
  boot n (program <$> clients).

(** The public submission interface of [thread_pool] (l.51-115). *)
Inductive thread_pool_call :=
| tp_enqueue (f : callable)
| tp_wait_to_enqueue (wait : list lck_op) (f : callable).

Definition thread_pool_call_code (c : thread_pool_call) : list stmt :=
  match c with
  | tp_enqueue f => ThreadPool.enqueue f
  | tp_wait_to_enqueue wait f => ThreadPool.wait_to_enqueue (user_waiter wait) f
  end.

(** The public members of [task_pool] that a client thread can run
    (l.129-241).  The base class is inherited privately and only [size] is
    re-exported (l.160), so [enqueue] and [thread_pool::wait_to_enqueue] are
    not among them. *)
Inductive task_pool_call :=
| call_poll (poller : nat → bool) (f : callable)
| call_poll_for (poller : nat → bool) (duration : nat) (f : callable)
| call_poll_until (poller : nat → bool) (abs_time : nat) (f : callable)
| call_wait (f : callable)
| call_wait_for (duration : nat) (f : callable)
| call_wait_until (abs_time : nat) (f : callable)
| call_wait_to_enqueue (wait : list lck_op) (f : callable)
| call_reset.

Definition task_pool_call_code (c : task_pool_call) : list stmt :=
  match c with
  | call_poll poller f => TaskPool.poll poller f
  | call_poll_for poller duration f => TaskPool.poll_for poller duration f
  | call_poll_until poller abs_time f => TaskPool.poll_until poller abs_time f
  | call_wait f => TaskPool.wait f
  | call_wait_for duration f => TaskPool.wait_for duration f
  | call_wait_until abs_time f => TaskPool.wait_until abs_time f
  | call_wait_to_enqueue wait f => TaskPool.wait_to_enqueue (user_waiter wait) f
  | call_reset => TaskPool.reset
  end.

(** The waiter that a public call of [task_pool] hands to
    [task_pool::wait_to_enqueue], and the call it amounts to. *)
Definition inner_waiter (c : task_pool_call) : option (waiter * callable) :=
  match c with
  | call_poll poller f => Some (cv_wait (TaskPool.poll_predicate poller), f)
  | call_poll_for poller d f =>
      Some (cv_wait_for d (TaskPool.poll_predicate poller), f)
  | call_poll_until poller abs f =>
      Some (cv_wait_until abs (TaskPool.poll_predicate poller), f)
  | call_wait f => Some (cv_wait (TaskPool.poll_predicate (λ _, true)), f)
  | call_wait_for d f =>
      Some (cv_wait_for d (TaskPool.poll_predicate (λ _, true)), f)
  | call_wait_until abs f =>
      Some (cv_wait_until abs (TaskPool.poll_predicate (λ _, true)), f)
  | call_wait_to_enqueue wait f => Some (user_waiter wait, f)
  | call_reset => None
  end.

Definition as_call (c : task_pool_call) : call :=
  match inner_waiter c with
  | Some (w, f) => submit (capacity_loop w) f
  | None => rebuild
  end.

Definition task_pool_system (n : nat) (clients : list (list task_pool_call))
  : state :=
  boot n ((λ cs, cs ≫= task_pool_call_code) <$> clients).

(** A call that goes through the loop of [task_pool::wait_to_enqueue]. *)
Definition gated (c : call) : bool :=
  match c with
  | submit (capacity_loop _) _ | rebuild => true
  | _ => false
  end.

(** ** The invariant of a thread *)

(** What follows the waiter in [thread_pool::wait_to_enqueue] (l.108-114). *)
Definition after_wait : list stmt :=
  [s_assert_owns; s_push; s_unlock; s_notify_one; s_return].

Definition waiter_stmt (st : stmt) : bool :=
  match st with
  | s_wait _ | s_while_full _ | s_pred _ _ | s_blocked _ _
  | s_relock _ _ _ | s_user _ => true
  | _ => false
  end.

(** The loop of [task_pool::wait_to_enqueue], or the call of the waiter
    with that loop. *)
Definition is_gate (st : stmt) : bool :=
  match st with
  | s_while_full _ | s_wait (capacity_loop _) => true
  | _ => false
  end.

(** The last statement of a waiter under way is that loop. *)
Definition ends_in_gate (ws : list stmt) : bool :=
  match last ws with
  | Some st => is_gate st
  | None => false
  end.

(** Where a client is in its current call. *)
Inductive progress :=
| idle
| locking (wait : waiter)
| entering (wait : waiter)
| waiting (ws : list stmt)
| pushing
| unlocking
| notifying
| returning
| stopping
| joining.

Definition progress_code (pg : progress) : list stmt :=
  match pg with
  | idle => []
  | locking wait => s_lock :: s_wait wait :: after_wait
  | entering wait => s_wait wait :: after_wait
  | waiting ws => ws ++ after_wait
  | pushing => [s_push; s_unlock; s_notify_one; s_return]
  | unlocking => [s_unlock; s_notify_one; s_return]
  | notifying => [s_notify_one; s_return]
  | returning => [s_return]
  | stopping => [s_stop; s_join]
  | joining => [s_join]
  end.

Definition waiter_action (a : action) : bool :=
  match a with
  | act_capacity _ _ | act_pred _ _ | act_expired _ | act_block | act_wake _
  | act_relock _ | act_user _ => true
  | _ => false
  end.

(** [before g b a]: in the actions of one client, [a] may come directly
    before [b].  For a client of the bounded pool ([g]) the assertion is
    passed directly after a test that found room under the lock. *)
Definition before (g : bool) (b a : action) : bool :=
  match b with
  | act_pack _ | act_drained =>
      match a with act_return _ | act_rebuilt => true | _ => false end
  | act_lock =>
      match a with act_pack _ => true | _ => false end
  | act_assert true =>
      match a with
      | act_capacity true true => true
      | act_lock => negb g
      | _ => negb g && waiter_action a
      end
  | act_capacity _ _ | act_pred _ _ | act_expired _ | act_block | act_wake _
  | act_relock _ | act_user _ | act_assert false | act_throw =>
      match a with act_lock => true | _ => waiter_action a end
  | act_push _ =>
      match a with act_assert true => true | _ => false end
  | act_unlock =>
      match a with act_push _ => true | _ => false end
  | act_notify_one _ =>
      match a with act_unlock => true | _ => false end
  | act_return _ =>
      match a with act_notify_one _ => true | _ => false end
  | act_stop =>
      match a with act_drained => true | _ => false end
  | act_discard _ | act_rebuilt =>
      match a with act_stop | act_discard _ => true | _ => false end
  | act_pop _ | act_exec _ _ | act_exit => false
  end.

Definition first_action (b : action) : bool :=
  match b with
  | act_pack _ | act_drained => true
  | _ => false
  end.

(** The actions of a client (newest first) come in the order of the
    statements of its calls. *)
Fixpoint ordered (g : bool) (h : list action) : Prop :=
  match h with
  | [] => True
  | b :: r =>
      match r with
      | [] => first_action b
      | a :: _ => before g b a
      end ∧ ordered g r
  end.

(** What a worker does. *)
Definition worker_action (a : action) : bool :=
  match a with
  | act_lock | act_pop _ | act_exit | act_block | act_wake _ | act_relock _
  | act_unlock | act_exec _ normal => true
  | _ => false
  end.

(** The newest action satisfies [ok]; [dflt] is the answer when there is no
    action yet. *)
Definition newest (ok : action → bool) (dflt : bool) (h : list action) : bool :=
  match h with
  | [] => dflt
  | a :: _ => ok a
  end.

(** The points of a call at which the local [task] exists. *)
Definition has_task (pg : progress) : bool :=
  match pg with
  | idle | stopping | joining => false
  | _ => true
  end.

(** What holds of the actions [h] and of the ownership [o] of the mutex at
    each point of a call; [g] is set for a client of the bounded pool. *)
Definition progress_ok (g : bool) (pg : progress) (o : bool) (h : list action)
  : Prop :=
  match pg with
  | idle =>
      newest (λ a, match a with act_return _ | act_rebuilt => true | _ => false end)
        true h
  | locking wait =>
      newest (λ a, match a with act_pack _ => true | _ => false end) false h
      ∧ (g → ∃ w, wait = capacity_loop w)
  | entering wait =>
      o = true
      ∧ newest (λ a, match a with act_lock => true | _ => false end) false h
      ∧ (g → ∃ w, wait = capacity_loop w)
  | waiting ws =>
      forallb waiter_stmt ws
      ∧ newest (λ a, match a with
                     | act_lock => true
                     | _ => waiter_action a
                     end) false h
      ∧ (newest (λ a, match a with act_lock => true | _ => false end) false h →
         o = true)
      ∧ (g → ends_in_gate ws
             ∨ (ws = [] ∧ (o = true → ∃ r, h = act_capacity true true :: r)))
  | pushing =>
      o = true
      ∧ newest (λ a, match a with act_assert true => true | _ => false end) false h
      ∧ (g → ∃ r, h = act_assert true :: act_capacity true true :: r)
  | unlocking =>
      newest (λ a, match a with act_push _ => true | _ => false end) false h
  | notifying =>
      newest (λ a, match a with act_unlock => true | _ => false end) false h
  | returning =>
      newest (λ a, match a with act_notify_one _ => true | _ => false end) false h
  | stopping =>
      newest (λ a, match a with act_drained => true | _ => false end) false h
  | joining =>
      newest (λ a, match a with act_stop => true | _ => false end) false h
  end.

(** The tasks that a worker popped and the tasks that it ran, oldest
    first, and the task that it holds. *)
Fixpoint popped (h : list action) : list handle :=
  match h with
  | [] => []
  | act_pop x :: r => popped r ++ [x]
  | _ :: r => popped r
  end.

Fixpoint executed (h : list action) : list handle :=
  match h with
  | [] => []
  | act_exec x _ :: r => executed r ++ [x]
  | _ :: r => executed r
  end.

Definition in_hand (ph : worker_phase) : list handle :=
  match ph with
  | wk_popped c | wk_exec c => [closure_handle c]
  | _ => []
  end.

(** The invariant of one thread: [o] tells whether it owns the mutex, [h]
    are its actions.  A worker at the queue owns the mutex; a client is at
    some point of a call, followed by the calls that remain. *)
Definition thread_ok (g : bool) (o : bool) (th : thread) (h : list action)
  : Prop :=
  match th with
  | worker ph =>
      forallb worker_action h
      ∧ popped h = executed h ++ in_hand ph
      ∧ match ph with
        | wk_test | wk_popped _ => o = true
        | wk_terminated _ => False
        | _ => True
        end
  | client cur code =>
      ordered g h
      ∧ ∃ pg rest,
          code = progress_code pg ++ program rest
          ∧ progress_ok g pg o h
          ∧ (has_task pg → is_Some cur)
          ∧ (g → forallb gated rest)
  | dead => ordered g h
  end.

Definition threads_ok (g : bool) (s : state) : Prop :=
  (∀ t th, threads s !! t = Some th →
     thread_ok g (owns_lock t (base (pool s))) th (own t (history s)))
  ∧ (∀ t, threads s !! t = None → own t (history s) = []).

(** The newest action of a thread is a test of the loop of
    [task_pool::wait_to_enqueue] that found room while the thread owned the
    mutex, or the assertion that follows such a test. *)
Definition just_checked (h : list action) : bool :=
  match h with
  | act_capacity true true :: _ => true
  | act_assert true :: act_capacity true true :: _ => true
  | _ => false
  end.

(** The invariant of the bounded pool: the queue is not longer than
    [max_tasks], and it has room as long as a thread that found room still
    owns the mutex and has not pushed. *)
Definition capacity_ok (s : state) : Prop :=
  length (tasks (base (pool s))) ≤ max_tasks (pool s)
  ∧ ∀ t, owns_lock t (base (pool s)) = true →
      just_checked (own t (history s)) →
      length (tasks (base (pool s))) < max_tasks (pool s).

(** ** The order of the queue *)

(** The handles of the tasks pushed to the queue and of the tasks taken off
    it (popped by a worker, or dropped with the queue by [reset]), oldest
    first, and those of the tasks run. *)
Fixpoint pushed (H : list (tid * action)) : list handle :=
  match H with
  | [] => []
  | (_, act_push x) :: r => pushed r ++ [x]
  | _ :: r => pushed r
  end.

Fixpoint removed (H : list (tid * action)) : list handle :=
  match H with
  | [] => []
  | (_, act_pop x) :: r | (_, act_discard x) :: r => removed r ++ [x]
  | _ :: r => removed r
  end.


Definition queued (s : state) : list handle :=
  closure_handle <$> tasks (base (pool s)).

Definition fifo_ok (s : state) : Prop :=
  pushed (history s) = removed (history s) ++ queued s.

(** ** Handles *)

(** Every task in the queue, held by a worker or local to a call has a
    shared state. *)
Definition holds_valid (n : nat) (th : thread) : Prop :=
  match th with
  | worker (wk_popped c) | worker (wk_exec c) => closure_handle c < n
  | client (Some task) _ => shared_state task < n
  | _ => True
  end.

Definition handles_ok (s : state) : Prop :=
  Forall (λ c, closure_handle c < length (futures s)) (tasks (base (pool s)))
  ∧ ∀ t th, threads s !! t = Some th → holds_valid (length (futures s)) th.

(** ** Clients that use one kind of call *)

(** The clients of an unbounded pool that only call [enqueue], and the
    clients of a bounded pool that only call [poll] and [wait] or, when
    [timed], their timed variants as well. *)
Inductive family :=
| fam_enqueue
| fam_poll (timed : bool).

Definition family_waiter (timed : bool) (w : waiter) : bool :=
  match w with
  | cv_wait _ => true
  | cv_wait_for _ _ | cv_wait_until _ _ => timed
  | _ => false
  end.

Definition waiter_in_family (F : family) (w : waiter) : bool :=
  match F, w with
  | fam_enqueue, noop_waiter => true
  | fam_poll timed, capacity_loop w' => family_waiter timed w'
  | _, _ => false
  end.

Definition in_family (F : family) (c : call) : bool :=
  match c with
  | submit w _ => waiter_in_family F w
  | rebuild => false
  end.

(** [family_before F b a]: what [before] leaves open, for a client of
    family [F]. *)
Definition family_before (F : family) (b a : action) : bool :=
  match F with
  | fam_enqueue =>
      match b with
      | act_assert true => match a with act_lock => true | _ => false end
      | act_assert false | act_throw => false
      | _ => negb (waiter_action b)
      end
  | fam_poll timed =>
      match b with
      | act_capacity _ locked =>
          locked
          && match a with
             | act_lock | act_pred true true => true
             | act_expired _ => timed
             | _ => false
             end
      | act_pred _ locked =>
          locked
          && match a with
             | act_capacity false true | act_relock false => true
             | _ => false
             end
      | act_block =>
          match a with act_pred false true => true | _ => false end
      | act_wake k =>
          match a with act_block => implb (is_timeout k) timed | _ => false end
      | act_relock timed_out =>
          match a with
          | act_wake k => bool_decide (is_timeout k = timed_out)
          | _ => false
          end
      | act_expired _ =>
          timed && match a with act_relock true => true | _ => false end
      | act_assert true =>
          match a with act_capacity true true => true | _ => false end
      | act_assert false | act_throw | act_user _ => false
      | _ => true
      end
  end.

Fixpoint family_ordered (F : family) (h : list action) : Prop :=
  match h with
  | [] => True
  | b :: r =>
      match r with
      | [] => True
      | a :: _ => family_before F b a
      end ∧ family_ordered F r
  end.

(** Where a call of [poll] is in its waiter. *)
Inductive poll_point :=
| pp_test
| pp_call
| pp_pred (p : predicate) (deadline : option nat)
| pp_blocked (p : predicate) (deadline : option nat)
| pp_relock (p : predicate) (deadline : option nat) (timed_out : bool)
| pp_passed.

Definition poll_code (pp : poll_point) (w : waiter) : list stmt :=
  match pp with
  | pp_test => [s_while_full w]
  | pp_call => [s_wait w; s_while_full w]
  | pp_pred p deadline => [s_pred p deadline; s_while_full w]
  | pp_blocked p deadline => [s_blocked p deadline; s_while_full w]
  | pp_relock p deadline timed_out =>
      [s_relock p deadline timed_out; s_while_full w]
  | pp_passed => []
  end.

Definition poll_point_ok (timed : bool) (pp : poll_point) (o : bool)
    (h : list action) : Prop :=
  match pp with
  | pp_test =>
      o = true
      ∧ newest (λ a, match a with
                     | act_lock | act_pred true true => true
                     | act_expired _ => timed
                     | _ => false
                     end) false h
  | pp_call =>
      o = true
      ∧ newest (λ a, match a with act_capacity false true => true | _ => false end)
          false h
  | pp_pred _ deadline =>
      o = true
      ∧ newest (λ a, match a with
                     | act_capacity false true | act_relock false => true
                     | _ => false
                     end) false h
      ∧ (is_Some deadline → timed)
  | pp_blocked _ deadline =>
      o = false
      ∧ newest (λ a, match a with act_block => true | _ => false end) false h
      ∧ (is_Some deadline → timed)
  | pp_relock _ deadline timed_out =>
      o = false
      ∧ newest (λ a, match a with
                     | act_wake k => bool_decide (is_timeout k = timed_out)
                     | _ => false
                     end) false h
      ∧ (is_Some deadline → timed)
      ∧ (timed_out → timed)
  | pp_passed =>
      o = true
      ∧ newest (λ a, match a with act_capacity true true => true | _ => false end)
          false h
  end.

Definition family_progress (F : family) (pg : progress) (o : bool)
    (h : list action) : Prop :=
  match pg with
  | locking w => waiter_in_family F w
  | entering w =>
      waiter_in_family F w ∧ o = true
      ∧ newest (λ a, match a with act_lock => true | _ => false end) false h
  | waiting ws =>
      match F with
      | fam_enqueue =>
          ws = [] ∧ o = true
          ∧ newest (λ a, match a with act_lock => true | _ => false end) false h
      | fam_poll timed =>
          ∃ pp w, ws = poll_code pp w ∧ family_waiter timed w
                  ∧ poll_point_ok timed pp o h
      end
  | stopping | joining => False
  | _ => True
  end.

(** The invariant of a client of family [F]; such a client never dies. *)
Definition family_ok (F : family) (o : bool) (th : thread) (h : list action)
  : Prop :=
  match th with
  | client cur code =>
      family_ordered F h
      ∧ ∃ pg rest,
          code = progress_code pg ++ program rest
          ∧ family_progress F pg o h
          ∧ forallb (in_family F) rest
  | _ => False
  end.

Definition family_at (F : family) (t : tid) (s : state) : Prop :=
  ∃ th, threads s !! t = Some th
        ∧ family_ok F (owns_lock t (base (pool s))) th (own t (history s)).

(** The thread of the client that comes after [others] clients in a pool
    constructed with worker count [n]. *)
Definition client_tid (n : nat) (others : nat) : tid := n `max` 1 + others.

(** A state that has not aborted, field by field. *)
Definition mk_state (wks : list tid) (q : list closure) (mx : option tid)
    (stp : bool) (m : nat) (fs : shared_states) (ths : list thread)
    (ntf : list tid) (clk : nat) (H : list (tid * action)) : state :=
  {| pool := {| base := {| workers := wks; tasks := q; queue_mutex := mx;
                           stopped := stp |};
                max_tasks := m |};
     futures := fs; threads := ths; notified := ntf; now := clk;
     aborted := false; history := H |}.

(** ** The specification of enqueue *)

(** What the specification says of [enqueue], as one change of the state:
    it packages the callable into a Task with its Handle, pushes the Task
    under the lock, signals one waiting worker and returns the Handle; the
    submitter goes on with [k].  The result is the Handle and the state. *)
Definition enqueue_spec (t : tid) (f : callable) (k : list stmt) (s : state)
  : handle * state :=
  let h := length (futures s) in
  let task := {| shared_state := h; stored_task := f |} in
  let woken := notify_one waits_on_condition s in
  (h,
   {| pool :=
        map_base (set_tasks (tasks (base (pool s)) ++ [run_task task])) (pool s);
      futures := futures s ++ [None];
      threads := <[t := client None k]> (threads s);
      notified := option_list woken ++ notified s;
      now := now s;
      aborted := aborted s;
      history :=
        [(t, act_return h); (t, act_notify_one woken); (t, act_unlock);
         (t, act_push h); (t, act_assert true); (t, act_lock); (t, act_pack h)]
        ++ history s |}).

(** [adjacent a b h]: in the actions [h] of a thread (newest first), [b] is
    the action that comes directly after [a]. *)
Definition adjacent (a b : action) (h : list action) : Prop :=
  ∃ l r, h = l ++ b :: a :: r.

(** The calls of [poll] and [wait] and, when [timed], of [poll_for],
    [poll_until], [wait_for] and [wait_until] as well. *)
Definition poll_call (timed : bool) (c : task_pool_call) : bool :=
  match c with
  | call_poll _ _ | call_wait _ => true
  | call_poll_for _ _ _ | call_poll_until _ _ _
  | call_wait_for _ _ | call_wait_until _ _ => timed
  | call_wait_to_enqueue _ _ | call_reset => false
  end.

(** What a client that only calls [poll] and [wait] does directly after
    ([b]) an action [a] of its own: a push follows the assertion, the
    assertion a test of the capacity that found room under the lock; the
    capacity is tested under the lock, after the lock is taken and after
    the combined condition held; the combined condition is evaluated under
    the lock, after a test of the capacity that found the queue full and
    after every wake, and the client blocks when it does not hold. *)
Definition poll_step (a b : action) : Prop :=
  (∀ h, b = act_push h → a = act_assert true)
  ∧ (∀ ok, b = act_assert ok → ok = true ∧ a = act_capacity true true)
  ∧ (∀ c lk, b = act_capacity c lk →
       lk = true ∧ (a = act_lock ∨ a = act_pred true true))
  ∧ (∀ c lk, b = act_pred c lk →
       lk = true ∧ (a = act_capacity false true ∨ a = act_relock false))
  ∧ (∀ lk, a = act_capacity true lk → b = act_assert true)
  ∧ (∀ lk, a = act_capacity false lk → ∃ c, b = act_pred c true)
  ∧ (∀ lk, a = act_pred true lk → ∃ c, b = act_capacity c true)
  ∧ (∀ lk, a = act_pred false lk → b = act_block)
  ∧ (a = act_block → ∃ k, b = act_wake k ∧ k ≠ by_timeout)
  ∧ (∀ k, a = act_wake k → ∃ timed_out, b = act_relock timed_out)
  ∧ (∀ timed_out, a = act_relock timed_out → ∃ c, b = act_pred c true).

(** The same for a client that also calls the timed variants: when the
    timed wait has returned on the expiry of its deadline, the next action
    is a test of the capacity under the lock, and the assertion and the push
    still follow only a test that found room. *)
Definition timed_poll_step (a b : action) : Prop :=
  (∀ h, b = act_push h → a = act_assert true)
  ∧ (∀ ok, b = act_assert ok → ok = true ∧ a = act_capacity true true)
  ∧ (∀ c lk, b = act_capacity c lk →
       lk = true
       ∧ (a = act_lock ∨ a = act_pred true true ∨ ∃ e, a = act_expired e))
  ∧ (∀ lk, a = act_capacity true lk → b = act_assert true)
  ∧ (∀ e, a = act_expired e → ∃ c, b = act_capacity c true)
  ∧ (∀ e, b = act_expired e → a = act_relock true)
  ∧ (a = act_relock true → ∃ e, b = act_expired e)
  ∧ (a = act_wake by_timeout → b = act_relock true).

(** ** A full queue *)

(** A schedule for a bounded pool of one worker (thread 0) and two clients
    (threads 1 and 2), the first of which makes two calls: client 1 submits
    a first Task; the worker takes it off the queue and releases the lock;
    client 1 submits a second Task, which fills the queue; client 2 makes
    its call and blocks. *)
Definition full_queue_schedule : list event :=
  replicate 9 (ev_run 1) ++ replicate 3 (ev_run 0) ++ replicate 9 (ev_run 1)
  ++ replicate 6 (ev_run 2).

(** Time passes beyond the deadline of client 2, its timed wait returns,
    and it runs on. *)
Definition expiry_schedule : list event :=
  [ev_tick; ev_tick; ev_timeout 2] ++ replicate 4 (ev_run 2).

(** ** Waiters of the caller *)

(** What a waiter made of operations on the [unique_lock] leaves behind,
    entered with the lock [owned] or not: whether the lock is owned when it
    returns, or [None] when an operation throws ([lock()] on a lock that is
    owned, [unlock()] on one that is not). *)
Fixpoint waiter_outcome (owned : bool) (ops : list lck_op) : option bool :=
  match ops with
  | [] => Some owned
  | op_unlock :: ops' => if owned then waiter_outcome false ops' else None
  | op_lock :: ops' => if owned then None else waiter_outcome true ops'
  end.

(** ** Invariants of the threads one by one *)

(** [P o th] holds of every thread [th], where [o] tells whether it owns
    the mutex; and no thread that does not exist owns the mutex. *)
Definition locally (P : bool → thread → Prop) (s : state) : Prop :=
  (∀ t th, threads s !! t = Some th → P (owns_lock t (base (pool s))) th)
  ∧ (∀ t, threads s !! t = None → owns_lock t (base (pool s)) = false).

(** ** The lock does not leave the critical section *)

(** A statement at which a submitter is blocked in a wait on a condition
    variable. *)
Definition blocked_stmt (st : stmt) : bool :=
  match st with
  | s_blocked _ _ | s_relock _ _ _ => true
  | _ => false
  end.

(** The points of a thread outside the scope of the [unique_lock]
    (l.104-112) and outside the waits in it that hold the lock: before the
    lock is taken, blocked in a wait on a condition variable, after the
    unlock, between two calls and after the last one, and after an
    exception or a failed assertion; for a worker, everywhere but at the
    queue. *)
Definition outside (th : thread) : bool :=
  match th with
  | dead => true
  | worker wk_test | worker (wk_popped _) => false
  | worker _ => true
  | client _ [] => true
  | client _ (st :: _) =>
      match st with
      | s_pack _ | s_lock | s_notify_one | s_return | s_drain | s_stop
      | s_join => true
      | _ => blocked_stmt st
      end
  end.

(** Only the statement at the head of the code of a thread is one at which
    it is blocked. *)
Definition blocked_at_head (th : thread) : Prop :=
  match th with
  | client _ code => forallb (λ st, negb (blocked_stmt st)) (tail code)
  | _ => True
  end.

Definition lock_scoped (o : bool) (th : thread) : Prop :=
  blocked_at_head th ∧ (outside th → o = false).

(** ** The wait of [poll] returns only when there is room *)

(** A condition that is true only of a queue that has room, as the one
    built at l.169, l.182 and l.196 is. *)
Definition admits (p : predicate) : Prop :=
  ∀ P clk, p P clk = true → TaskPool.can_enqueue_unlocked P = true.

Fixpoint waiter_admits (w : waiter) : Prop :=
  match w with
  | cv_wait p | cv_wait_for _ p | cv_wait_until _ p => admits p
  | capacity_loop w' => waiter_admits w'
  | noop_waiter | user_waiter _ => True
  end.

Definition stmt_admits (st : stmt) : Prop :=
  match st with
  | s_wait w | s_while_full w => waiter_admits w
  | s_pred p _ | s_blocked p _ | s_relock p _ _ => admits p
  | _ => True
  end.

(** Every condition in the code of a thread is such a condition. *)
Definition code_admits (o : bool) (th : thread) : Prop :=
  match th with
  | client _ code => Forall stmt_admits code
  | _ => True
  end.

(** A thread whose newest action is an evaluation of its condition that
    came out true under the lock still owns the mutex, and the queue has
    room. *)
Definition pred_room (s : state) : Prop :=
  ∀ t r,
    own t (history s) = act_pred true true :: r →
    owns_lock t (base (pool s)) = true
    ∧ length (tasks (base (pool s))) < max_tasks (pool s).

(** [b] may come directly after [a]: a test of the capacity that finds the
    queue full does not come directly after the condition was found true
    under the lock. *)
Definition room_after_pred (b a : action) : bool :=
  match a, b with
  | act_pred true true, act_capacity false _ => false
  | _, _ => true
  end.

Fixpoint chained (R : action → action → bool) (h : list action) : Prop :=
  match h with
  | [] => True
  | b :: r =>
      match r with
      | [] => True
      | a :: _ => R b a
      end ∧ chained R r
  end.

Definition room_ok (s : state) : Prop :=
  pred_room s ∧ ∀ t, chained room_after_pred (own t (history s)).

(** ** Every submission has a future of its own *)

(** The thread has packed a Task that it has not pushed yet: in its code
    the push of l.109 comes before the next [pack_shared_task]. *)
Fixpoint push_first (code : list stmt) : bool :=
  match code with
  | [] => false
  | s_push :: _ => true
  | s_pack _ :: _ => false
  | _ :: k => push_first k
  end.

(** The handle of the Task that a thread holds and has yet to push. *)
Definition pending (th : thread) : list handle :=
  match th with
  | client (Some task) code =>
      if push_first code then [shared_state task] else []
  | _ => []
  end.

(** The handles of the Tasks that were pushed and of those about to be. *)
Definition issued (s : state) : list handle :=
  pushed (history s) ++ (threads s ≫= pending).

Definition handles_fresh (s : state) : Prop :=
  NoDup (issued s) ∧ Forall (λ h, h < length (futures s)) (issued s).

(** * The class registry of zobject.c *)

(** The nodes of the class tree live on the heap; a pointer to a
    [struct ZObjClass], and the pointer to the [rb_node] inside it (l.14:
    [to_class] is [container_of]), is the index of the node in the heap.
    [zobject.h], [rb_tree.h] and [mem.h] are not part of the sources: the
    types of the tree links, of the memory blocks and of the constructor
    and destructor pointers are parameters, and the fields of
    [struct ZObjClass] are those that zobject.c reads and writes (l.40-56,
    l.119). *)
Section zobject.
Context {RBNode mem_t cons_t des_t : Type}.

Record ZObjClass := {
  class_name : string;
  parent : option nat;
  constructor : cons_t;
  destructor : des_t;
  class_body : mem_t;
  rb_node : RBNode
}.

Definition set_class_name (v : string) (c : ZObjClass) : ZObjClass :=
  {| class_name := v; parent := parent c; constructor := constructor c;
     destructor := destructor c; class_body := class_body c;
     rb_node := rb_node c |}.

Definition set_parent (v : option nat) (c : ZObjClass) : ZObjClass :=
  {| class_name := class_name c; parent := v; constructor := constructor c;
     destructor := destructor c; class_body := class_body c;
     rb_node := rb_node c |}.

Definition set_constructor (v : cons_t) (c : ZObjClass) : ZObjClass :=
  {| class_name := class_name c; parent := parent c; constructor := v;
     destructor := destructor c; class_body := class_body c;
     rb_node := rb_node c |}.

Definition set_destructor (v : des_t) (c : ZObjClass) : ZObjClass :=
  {| class_name := class_name c; parent := parent c;
     constructor := constructor c; destructor := v;
     class_body := class_body c; rb_node := rb_node c |}.

Definition set_class_body (v : mem_t) (c : ZObjClass) : ZObjClass :=
  {| class_name := class_name c; parent := parent c;
     constructor := constructor c; destructor := destructor c;
     class_body := v; rb_node := rb_node c |}.

(** An assignment to a field of the node at [p]; [None] when [p] does not
    point to a node. *)
Definition store (h : list ZObjClass) (p : nat) (f : ZObjClass → ZObjClass)
  : option (list ZObjClass) :=
  c ← h !! p; Some (<[p := f c]> h).

(** l.37-57, assignment by assignment. *)
Definition swapClass (h : list ZObjClass) (src dst : nat)
  : option (list ZObjClass) :=
  s ← h !! src;
  let tmp_name := class_name s in
  let tmp_parent := parent s in
  let tmp_cons := constructor s in
  let tmp_des := destructor s in
  let tmp_body := class_body s in
  d ← h !! dst; h ← store h src (set_class_name (class_name d));
  d ← h !! dst; h ← store h src (set_parent (parent d));
  d ← h !! dst; h ← store h src (set_constructor (constructor d));
  d ← h !! dst; h ← store h src (set_destructor (destructor d));
  d ← h !! dst; h ← store h src (set_class_body (class_body d));
  h ← store h dst (set_class_name tmp_name);
  h ← store h dst (set_parent tmp_parent);
  h ← store h dst (set_constructor tmp_cons);
  h ← store h dst (set_destructor tmp_des);
  store h dst (set_class_body tmp_body).

(** The node [c] with what [swapClass] moves taken from [p]: everything
    but the links of the tree. *)
Definition with_payload (p c : ZObjClass) : ZObjClass :=
  {| class_name := class_name p; parent := parent p;
     constructor := constructor p; destructor := destructor p;
     class_body := class_body p; rb_node := rb_node c |}.

(** The loop of [zGetClass] (l.150-156), from the class at [class]:
    [strcmp(...) != 0] is the inequality of the names.  The result is
    [Some None] for the return of [NULL], [Some (Some body)] for the return
    of the body of a class, and [None] when the fuel runs out or a pointer
    is followed that points to no node. *)
Fixpoint zGetClass_loop (fuel : nat) (h : list ZObjClass) (class : nat)
    (name : string) : option (option mem_t) :=
  match fuel with
  | 0 => None
  | S fuel' =>
      c ← h !! class;
      if negb (String.eqb (class_name c) name)
      then match parent c with
           | None => Some None
           | Some p => zGetClass_loop fuel' h p name
           end
      else Some (Some (class_body c))
  end.

(** l.145-159; [ins_class] is [ins->class] and a [NULL] name is [None]. *)
Definition zGetClass (fuel : nat) (h : list ZObjClass) (ins_class : nat)
    (name : option string) : option (option mem_t) :=
  match name with
  | None => c ← h !! ins_class; Some (Some (class_body c))
  | Some name => zGetClass_loop fuel h ins_class name
  end.

(** [nearest h name c a]: going up from class [c] by the [parent]
    pointers, [a] is the first class called [name]. *)
Inductive nearest (h : list ZObjClass) (name : string) : nat → nat → Prop :=
| nearest_here c cls :
    h !! c = Some cls → class_name cls = name → nearest h name c c
| nearest_up c cls p a :
    h !! c = Some cls → class_name cls ≠ name → parent cls = Some p →
    nearest h name p a → nearest h name c a.

(** Every class was put on the heap after its parent. *)
Definition parents_first (h : list ZObjClass) : Prop :=
  ∀ i c p, h !! i = Some c → parent c = Some p → p < i.

End zobject.

(** *** Facts on the mutex and on closures *)

Lemma acquire_Some t tp tp' :
  acquire t tp = Some tp' → queue_mutex tp = None ∧ tp' = set_mutex (Some t) tp.
Proof. unfold acquire. destruct (queue_mutex tp); naive_solver. Qed.

Lemma owns_lock_free t tp : queue_mutex tp = None → owns_lock t tp = false.
Proof. unfold owns_lock. intros ->. by rewrite bool_decide_eq_false. Qed.

Lemma owns_lock_take t u tp :
  owns_lock u (set_mutex (Some t) tp) = bool_decide (t = u).
Proof. unfold owns_lock; simpl. apply bool_decide_ext. naive_solver. Qed.

Lemma owns_lock_released t tp : owns_lock t (release t tp) = false.
Proof.
  unfold release. destruct (owns_lock t tp) eqn:H; [|done].
  by apply owns_lock_free.
Qed.

Lemma owns_lock_release_other t u tp :
  u ≠ t → owns_lock u (release t tp) = owns_lock u tp.
Proof.
  intros Hne. unfold release. destruct (owns_lock t tp) eqn:H; [|done].
  apply bool_decide_eq_true in H. unfold owns_lock; simpl. rewrite H.
  rewrite !bool_decide_eq_false_2; naive_solver.
Qed.

Lemma tasks_release t tp : tasks (release t tp) = tasks tp.
Proof. unfold release. by destruct (owns_lock t tp). Qed.

Lemma closure_call_normal c fs : (closure_call c fs).2 = normal.
Proof.
  destruct c as [task]; simpl. unfold packaged_task_invoke.
  by destruct (stored_task task ()).
Qed.

Lemma closure_call_length c fs : length (closure_call c fs).1 = length fs.
Proof.
  destruct c as [task]. unfold closure_call, packaged_task_invoke.
  destruct (stored_task task ()); apply length_insert.
Qed.

(** *** The cases of a step *)

Lemma run_thread_cases t s s' :
  run_thread t s = Some s' →
  wake by_notify t s = Some s'
  ∨ (∃ ph, threads s !! t = Some (worker ph) ∧ worker_step t ph s = Some s')
  ∨ (∃ cur st k, threads s !! t = Some (client cur (st :: k))
       ∧ client_step t cur st k s = Some s').
Proof.
  unfold run_thread. intros H.
  destruct (threads s !! t) as [[ph|cur [|st k]|]|] eqn:Hth; try done.
  - destruct ph; eauto.
  - destruct st; eauto 10.
Qed.

Lemma step_cases (Q : event → state → state → Prop) :
  (∀ e s, Q e s s) →
  (∀ s, aborted s = false → Q ev_tick s (tick s)) →
  (∀ e s t k s', aborted s = false → event_thread e = Some t →
     wake k t s = Some s' → Q e s s') →
  (∀ e s t ph s', aborted s = false → event_thread e = Some t →
     threads s !! t = Some (worker ph) →
     worker_step t ph s = Some s' → Q e s s') →
  (∀ e s t cur st k s', aborted s = false → event_thread e = Some t →
     threads s !! t = Some (client cur (st :: k)) →
     client_step t cur st k s = Some s' → Q e s s') →
  ∀ e s, Q e s (step e s).
Proof.
  intros Hid Htick Hwake Hwk Hcl e s. unfold step.
  destruct (aborted s) eqn:Hab; [apply Hid|].
  destruct e as [|t|t|t]; simpl.
  - by apply Htick.
  - destruct (run_thread t s) as [s'|] eqn:Hrun; simpl; [|apply Hid].
    apply run_thread_cases in Hrun
      as [H|[(ph & H1 & H2)|(cur & st & k & H1 & H2)]]; eauto.
  - destruct (wake by_spurious t s) eqn:H; simpl; eauto.
  - destruct (wake by_timeout t s) eqn:H; simpl; eauto.
Qed.

Lemma wake_moves k t s s' : wake k t s = Some s' → moved t s s'.
Proof.
  unfold wake. intros H.
  destruct (threads s !! t) as [[[]|cur [|[] k']|]|] eqn:Hth; try done;
    case_match; simplify_eq.
  - eexists _, _, (View _ _ _ _), []. split; [eassumption|]. unfold view_of.
    split; [apply (lt_wk_wake _ _ _ _ k)|]. simpl.
    split_and!; try done. by rewrite app_nil_r.
  - eexists _, _, (View _ _ _ _), []. split; [eassumption|]. unfold view_of.
    split; [apply (lt_wake _ _ _ _ _ _ _ _ k)|].
    + intros ->. simpl in *. by destruct deadline.
    + simpl. split_and!; try done. by rewrite app_nil_r.
Qed.

Lemma owns_lock_taken t tp : owns_lock t (set_mutex (Some t) tp) = true.
Proof. rewrite owns_lock_take. by apply bool_decide_eq_true. Qed.

Lemma owns_lock_take_other t u tp :
  u ≠ t → queue_mutex tp = None →
  owns_lock u (set_mutex (Some t) tp) = owns_lock u tp.
Proof.
  intros Hne Hfree. rewrite owns_lock_take, (owns_lock_free u) by done.
  by apply bool_decide_eq_false_2.
Qed.

Create HintDb updates discriminated.
#[local] Hint Unfold log log_all set_thread set_threads with_base with_pool
  set_futures set_notified notify_all add_notified clear_notified map_base
  abort : updates.

Ltac frame_mutex :=
  autounfold with updates; simpl;
  rewrite ?app_nil_r, ?tasks_release, ?owns_lock_released, ?owns_lock_taken;
  try done;
  try (intros ??; first
    [ by apply owns_lock_release_other
    | by apply owns_lock_take_other ]).

Ltac step_as lt :=
  eexists _, _, (View _ _ _ _), [];
  split; [eassumption|]; unfold view_of;
  split;
    [ try rewrite (owns_lock_free _) by done;
      repeat match goal with
        | H : owns_lock _ _ = _ |- _ => rewrite H
        | H : tasks _ = _ |- _ => rewrite H
        end;
      eapply lt; eauto |];
  split_and!; frame_mutex.

Lemma worker_moves t ph s s' :
  threads s !! t = Some (worker ph) →
  worker_step t ph s = Some s' → moved t s s'.
Proof.
  intros Hth H. destruct ph; simpl in H; simplify_option_eq.
  - apply acquire_Some in Heqo as [Hfree ->]. step_as lt_wk_lock.
  - destruct (tasks (base (pool s))) as [|c q] eqn:Hq; [case_match|]; simplify_eq.
    + step_as lt_wk_exit.
    + step_as lt_wk_block.
    + step_as lt_wk_pop.
  - apply acquire_Some in Heqo as [Hfree ->]. step_as lt_wk_relock.
  - step_as lt_wk_unlock.
  - rewrite closure_call_normal in H. simplify_eq. step_as lt_wk_exec.
Qed.

Lemma client_moves t cur st k s s' :
  threads s !! t = Some (client cur (st :: k)) →
  client_step t cur st k s = Some s' → moved t s s'.
Proof.
  intros Hth H. destruct st; simpl in H; simplify_option_eq;
    repeat match goal with
    | H : acquire _ _ = Some _ |- _ => apply acquire_Some in H as [Hfree ->]
    end.
  - step_as lt_pack.
  - step_as lt_lock.
  - step_as lt_wait.
  - case_match; simplify_eq.
    + step_as lt_assert.
    + step_as lt_assert_fail.
  - destruct cur; simplify_eq/=. step_as lt_push.
  - step_as lt_unlock.
  - step_as lt_notify.
  - step_as lt_return.
  - unfold TaskPool.can_enqueue_unlocked, ThreadPool.size_unlocked in H.
    case_match; simplify_eq.
    + apply Nat.ltb_lt in H0. step_as lt_room.
    + apply Nat.ltb_ge in H0. step_as lt_full.
  - repeat case_match; simplify_eq.
    + step_as lt_pred_true.
    + step_as lt_pred_false.
  - case_match; simplify_eq.
    + step_as lt_relock_timeout.
    + step_as lt_relock.
  - destruct op; repeat case_match; simplify_option_eq;
      repeat match goal with
      | H : acquire _ _ = Some _ |- _ => apply acquire_Some in H as [Hfree ->]
      end.
    + step_as lt_user_unlock.
    + step_as lt_user_unlock_throw.
    + step_as lt_user_lock_throw.
    + step_as lt_user_lock.
  - case_match; simplify_eq. apply andb_true_iff in H0 as [Hq _].
    apply bool_decide_eq_true in Hq. step_as lt_drain.
  - case_match; simplify_eq. apply bool_decide_eq_true in H0.
    step_as lt_stop. by apply owns_lock_free.
  - case_match; simplify_eq. apply andb_true_iff in H0 as [Hfree _].
    apply bool_decide_eq_true in Hfree.
    eexists _, _, (View _ _ _ _), (spawned (length (workers (base (pool s))))).
    split; [eassumption|]. unfold view_of.
    split; [rewrite (owns_lock_free _) by done; eapply lt_join|].
    split_and!; frame_mutex.
    + apply insert_app_l. by eapply lookup_lt_Some.
    + apply Forall_replicate. done.
    + do 2 f_equal. change (list_fmap ?A ?B ?f ?l) with (f <$> l).
      by rewrite fmap_reverse, <-list_fmap_compose.
    + intros. by rewrite !owns_lock_free.
Qed.

Lemma step_moves e s :
  silent s (step e s)
  ∨ ∃ t, event_thread e = Some t ∧ moved t s (step e s).
Proof.
  revert e s.
  apply (step_cases (λ e s s',
    silent s s' ∨ ∃ t, event_thread e = Some t ∧ moved t s s')).
  - by left.
  - by left.
  - intros. right. eexists. split; [done|]. by eapply wake_moves.
  - intros. right. eexists. split; [done|]. by eapply worker_moves.
  - intros. right. eexists. split; [done|]. by eapply client_moves.
Qed.

(** *** The invariant of a thread is kept by its own steps *)

Lemma program_cons c cs : program (c :: cs) = call_code c ++ program cs.
Proof. done. Qed.

Lemma ends_in_gate_app ws1 ws2 :
  ws2 ≠ [] → ends_in_gate (ws1 ++ ws2) = ends_in_gate ws2.
Proof.
  intros Hne. unfold ends_in_gate.
  destruct ws2 as [|st ws2 _] using rev_ind; [done|].
  by rewrite app_assoc, !last_snoc.
Qed.

Lemma ends_in_gate_cons st ws :
  ws ≠ [] → ends_in_gate (st :: ws) = ends_in_gate ws.
Proof. apply (ends_in_gate_app [st]). Qed.

Lemma forallb_waiter_body clk w : forallb waiter_stmt (waiter_body clk w).
Proof. destruct w; simpl; try done. induction ops; simpl; auto. Qed.

Lemma ends_in_gate_grow l ws : ends_in_gate ws → ends_in_gate (l ++ ws).
Proof.
  intros H. rewrite ends_in_gate_app; [done|]. by intros ->.
Qed.

Lemma ends_in_gate_skip st ws :
  ends_in_gate (st :: ws) → (is_gate st ∧ ws = []) ∨ ends_in_gate ws.
Proof.
  destruct ws as [|st' ws]; [by left|].
  rewrite ends_in_gate_cons by done. by right.
Qed.

Lemma ordered_cons g b h :
  newest (before g b) (first_action b) h → ordered g h → ordered g (b :: h).
Proof. destruct h; simpl; auto. Qed.

Lemma ordered_nil g : ordered g [].
Proof. done. Qed.

Arguments ordered : simpl never.

Lemma newest_mono (ok1 ok2 : action → bool) (d1 d2 : bool) h :
  newest ok1 d1 h → (∀ a, ok1 a → ok2 a) → (d1 → d2) → newest ok2 d2 h.
Proof. destruct h; simpl; auto. Qed.

Ltac newest_tac :=
  eapply newest_mono;
    [ eassumption
    | intros []; simpl; intros; repeat case_match; done
    | done ].

Ltac ordered_tac :=
  simpl; apply ordered_cons; [|done]; newest_tac.

Lemma ordered_discards g (q : list closure) h :
  ordered g h →
  newest (λ a, match a with act_stop | act_discard _ => true | _ => false end)
    false h →
  ordered g (act_rebuilt :: reverse (act_discard ∘ closure_handle <$> q) ++ h).
Proof.
  revert h. induction q as [|c q IH]; intros h Hord Hnew.
  - ordered_tac.
  - rewrite fmap_cons, reverse_cons, <-app_assoc. apply IH; [|done].
    ordered_tac.
Qed.

Lemma thread_ok_step g m o q fs th acts o' q' fs' th' h :
  thread_ok g o th h →
  ltrans m (View o q fs th) acts (View o' q' fs' th') →
  thread_ok g o' th' (acts ++ h).
Proof.
  intros Hok Hlt. destruct th as [ph|cur code|].
  - destruct Hok as (Hh & Hpop & Hph).
    inversion Hlt; subst; simpl in *; split_and!; try done.
    + by rewrite Hpop, app_nil_r.
    + by rewrite Hpop, app_nil_r.
  - destruct Hok as (Hord & pg & rest & -> & Hpg & Hcur & Hg).
    destruct pg; simpl in *.
    + destruct rest as [|[w f|] rest]; simpl in *.
      * inversion Hlt.
      * inversion Hlt; subst. split; [ordered_tac|].
        exists (locking w), rest. simpl. split_and!; try done.
        -- intros Hgt. pose proof (Hg Hgt) as [Hw _]%andb_True.
           destruct w; try done. eauto.
        -- intros Hgt. by pose proof (Hg Hgt) as [_ ?]%andb_True.
      * inversion Hlt; subst. simpl. split; [ordered_tac|].
        exists stopping, rest. simpl. split_and!; done.
    + destruct Hpg as [Hnew Hw]. inversion Hlt; subst. split; [ordered_tac|].
      exists (entering wait), rest. simpl. split_and!; try done.
    + destruct Hpg as (-> & Hnew & Hw). inversion Hlt; subst. split; [done|].
      exists (waiting (waiter_body clk wait)), rest. simpl. split_and!; try done.
      * by rewrite <-app_assoc.
      * apply forallb_waiter_body.
      * newest_tac.
      * intros Hgt. destruct (Hw Hgt) as [w ->]. by left.
    + destruct Hpg as (Hws & Hnew & Hlk & Hgate).
      destruct ws as [|st ws]; simpl in *.
      * inversion Hlt; subst.
        -- split.
           ++ destruct g; [|ordered_tac].
              destruct (Hgate I) as [[]|[_ [r ->]]]; [done|].
              by apply ordered_cons.
           ++ exists pushing, rest. simpl.
              split_and!; try done. intros Hgt.
              destruct (Hgate Hgt) as [[]|[_ [r ->]]]; eauto.
        -- ordered_tac.
      * apply andb_True in Hws as [Hst Hws].
        assert (Hskip : g → (is_gate st ∧ ws = []) ∨ ends_in_gate ws).
        { intros Hgt. destruct (Hgate Hgt) as [?|[? _]]; [|done].
          by apply ends_in_gate_skip. }
        clear Hgate.
        destruct st; try done; inversion Hlt; subst; simpl.
        -- split; [done|]. exists (waiting (waiter_body clk wait ++ ws)), rest.
           simpl. split_and!; try done.
           ++ by rewrite <-!app_assoc.
           ++ rewrite forallb_app. apply andb_True. split; [|done]. apply forallb_waiter_body.
           ++ intros Hgt. left.
              destruct (Hskip Hgt) as [[Hgate ->]|?]; [|by apply ends_in_gate_grow].
              by destruct wait.
        -- (* the loop finds room *)
           split; [ordered_tac|]. exists (waiting ws), rest. simpl.
           split_and!; try done. intros Hgt.
           destruct (Hskip Hgt) as [[_ ->]|?]; [right|by left].
           split; [done|]. intros ->. eauto.
        -- (* the loop finds the queue full *)
           split; [ordered_tac|].
           exists (waiting (s_wait wait :: s_while_full wait :: ws)), rest.
           simpl. split_and!; try done. intros Hgt. left.
           destruct (Hskip Hgt) as [[_ ->]|?]; [done|].
           by apply (ends_in_gate_grow [_; _]).
        -- (* the predicate holds *)
           split; [ordered_tac|]. exists (waiting ws), rest. simpl.
           split_and!; try done. intros Hgt. left.
           by destruct (Hskip Hgt) as [[[] _]|?].
        -- (* the predicate fails: block *)
           split; [simpl; apply ordered_cons; [done|ordered_tac]|].
           exists (waiting (s_blocked p deadline :: ws)), rest. simpl.
           split_and!; try done. intros Hgt. left.
           destruct (Hskip Hgt) as [[[] _]|?].
           by apply (ends_in_gate_grow [_]).
        -- (* wake *)
           split; [ordered_tac|].
           exists (waiting (s_relock p deadline (is_timeout kind) :: ws)), rest.
           simpl. split_and!; try done. intros Hgt. left.
           destruct (Hskip Hgt) as [[[] _]|?].
           by apply (ends_in_gate_grow [_]).
        -- (* relock *)
           split; [ordered_tac|].
           exists (waiting (s_pred p deadline :: ws)), rest.
           simpl. split_and!; try done. intros Hgt. left.
           destruct (Hskip Hgt) as [[[] _]|?].
           by apply (ends_in_gate_grow [_]).
        -- (* relock after a timeout *)
           split; [simpl; apply ordered_cons; [done|ordered_tac]|].
           exists (waiting ws), rest.
           simpl. split_and!; try done. intros Hgt. left.
           by destruct (Hskip Hgt) as [[[] _]|?].
        -- split; [ordered_tac|]. exists (waiting ws), rest.
           simpl. split_and!; try done. intros Hgt. left.
           by destruct (Hskip Hgt) as [[[] _]|?].
        -- ordered_tac.
        -- split; [ordered_tac|]. exists (waiting ws), rest.
           simpl. split_and!; try done. intros Hgt. left.
           by destruct (Hskip Hgt) as [[[] _]|?].
        -- ordered_tac.
    + destruct Hpg as (-> & Hnew & Hgate). inversion Hlt; subst.
      split; [ordered_tac|]. exists unlocking, rest. done.
    + inversion Hlt; subst.
      split; [ordered_tac|]. exists notifying, rest. done.
    + inversion Hlt; subst.
      split; [ordered_tac|]. exists returning, rest. done.
    + inversion Hlt; subst.
      split; [ordered_tac|]. exists idle, rest. done.
    + inversion Hlt; subst.
      split; [ordered_tac|]. exists joining, rest. done.
    + inversion Hlt; subst. split.
      * apply ordered_discards; [done|].
        newest_tac.
      * exists idle, rest. simpl. split_and!; done.
  - inversion Hlt.
Qed.

(** *** Lifting to states *)

Lemma own_app_eq t acts H :
  own t (((λ a, (t, a)) <$> acts) ++ H) = acts ++ own t H.
Proof.
  unfold own. induction acts as [|a acts IH]; [done|].
  simpl. rewrite filter_cons_True by done. simpl. by f_equal.
Qed.

Lemma own_app_ne t u acts H :
  u ≠ t → own u (((λ a, (t, a)) <$> acts) ++ H) = own u H.
Proof.
  intros Hne. unfold own. induction acts as [|a acts IH]; [done|].
  simpl. rewrite filter_cons_False; [done|]. simpl. congruence.
Qed.

Lemma moved_lookup s s' t th th' extra u thu :
  threads s !! t = Some th →
  threads s' = <[t := th']> (threads s) ++ extra →
  Forall (λ th', th' = worker wk_lock) extra →
  threads s' !! u = Some thu →
  (u = t ∧ thu = th')
  ∨ (u ≠ t ∧ threads s !! u = Some thu)
  ∨ (u ≠ t ∧ threads s !! u = None ∧ thu = worker wk_lock).
Proof.
  intros Hth -> Hextra Hu. apply lookup_lt_Some in Hth as Hlt.
  destruct (decide (u = t)) as [->|Hne].
  - left. split; [done|].
    rewrite lookup_app_l in Hu by by rewrite length_insert.
    rewrite list_lookup_insert_eq in Hu by done. congruence.
  - right. destruct (threads s !! u) as [thu'|] eqn:Hold.
    + left. split; [done|]. apply lookup_lt_Some in Hold as Hlt'.
      rewrite lookup_app_l in Hu by by rewrite length_insert.
      rewrite list_lookup_insert_ne in Hu by done. congruence.
    + right. split_and!; try done. apply lookup_ge_None in Hold.
      rewrite lookup_app_r in Hu by by rewrite length_insert.
      eapply Forall_lookup_1 in Hextra; [|exact Hu]. done.
Qed.

Lemma threads_ok_step g e s : threads_ok g s → threads_ok g (step e s).
Proof.
  intros [Hok Hnone]. unfold threads_ok.
  destruct (step_moves e s) as [(Hth & Hp & _ & Hh)|Hmv].
  { rewrite Hth, Hp, Hh. done. }
  destruct Hmv as (t & _ & th & acts & [o' q' fs' th'] & extra & Hth & Hlt
                   & Hths & Hextra & _ & _ & Hh & _ & Ho & Hother).
  split.
  - intros u thu Hu.
    destruct (moved_lookup _ _ _ _ _ _ _ _ Hth Hths Hextra Hu)
      as [[-> ->]|[[Hne Hold]|(Hne & Hold & ->)]]; simpl in *.
    + rewrite Hh, own_app_eq, Ho. eapply thread_ok_step; [|exact Hlt].
      by apply Hok.
    + rewrite Hh, own_app_ne, Hother by done. by apply Hok.
    + rewrite Hh, own_app_ne, Hnone by done. done.
  - intros u Hu. rewrite Hths in Hu. apply lookup_ge_None in Hu.
    rewrite length_app, length_insert in Hu.
    assert (u ≠ t) by (apply lookup_lt_Some in Hth; lia).
    rewrite Hh, own_app_ne by done. apply Hnone, lookup_ge_None. lia.
Qed.

Lemma threads_ok_run g sched s : threads_ok g s → threads_ok g (run sched s).
Proof.
  revert s. induction sched as [|e sched IH]; intros s Hok; [done|].
  simpl. by apply IH, threads_ok_step.
Qed.

Lemma threads_ok_system (g : bool) n clients :
  (g → Forall (λ cs, forallb gated cs) clients) →
  threads_ok g (system n clients).
Proof.
  intros Hg. split; [|done].
  intros t th Hlk. unfold system, boot in *. simpl in *.
  apply lookup_app_Some in Hlk as [Hlk|[_ Hlk]].
  - unfold spawned in Hlk. apply lookup_replicate in Hlk as [-> _]. done.
  - apply list_lookup_fmap_Some in Hlk as (code & -> & Hcode).
    apply list_lookup_fmap_Some in Hcode as (cs & -> & Hcs). simpl.
    split; [apply ordered_nil|]. exists idle, cs. split_and!; try done.
    intros Hgt. eapply Forall_lookup_1 in Hg; [|done|done]. done.
Qed.

Lemma task_pool_call_code_as_call c :
  task_pool_call_code c = call_code (as_call c).
Proof. by destruct c. Qed.

Lemma gated_as_call c : gated (as_call c).
Proof. by destruct c. Qed.

Lemma task_pool_system_system n clients :
  task_pool_system n clients = system n (fmap (M:=list) as_call <$> clients).
Proof.
  unfold task_pool_system, system. f_equal.
  rewrite <-list_fmap_compose. apply list_fmap_ext. intros _ cs _. simpl.
  unfold program. induction cs as [|c cs IH]; [done|].
  rewrite fmap_cons, !bind_cons, IH. by rewrite task_pool_call_code_as_call.
Qed.

Lemma threads_ok_task_pool_system n clients sched :
  threads_ok true (run sched (task_pool_system n clients)).
Proof.
  rewrite task_pool_system_system. apply threads_ok_run, threads_ok_system.
  intros _. apply Forall_fmap, Forall_forall. intros cs _. simpl.
  induction cs as [|c cs IH]; [done|].
  rewrite fmap_cons. apply andb_True. split; [apply gated_as_call|done].
Qed.

(** *** The capacity invariant *)

Lemma owns_lock_unique t u tp :
  owns_lock t tp = true → owns_lock u tp = true → t = u.
Proof.
  unfold owns_lock. intros Ht%bool_decide_eq_true Hu%bool_decide_eq_true.
  congruence.
Qed.

(** Only the push of l.109 makes the queue longer. *)
Lemma ltrans_tasks m o q fs th acts o' q' fs' th' :
  ltrans m (View o q fs th) acts (View o' q' fs' th') →
  length q' ≤ length q
  ∨ ∃ task k, th = client (Some task) (s_push :: k)
      ∧ q' = q ++ [run_task task]
      ∧ acts = [act_push (shared_state task)].
Proof.
  inversion 1; subst; simpl; try (left; lia); right; eauto.
Qed.

Lemma thread_ok_at_push g o cur k h :
  thread_ok g o (client cur (s_push :: k)) h →
  o = true
  ∧ (g → ∃ r, h = act_assert true :: act_capacity true true :: r).
Proof.
  intros (_ & pg & rest & Hcode & Hpg & _ & _).
  destruct pg; simpl in *; simplify_eq; try by destruct Hpg as (? & ? & ?).
  - by destruct rest as [|[] ?].
  - destruct Hpg as (Hws & _). destruct ws as [|[] ?]; simplify_eq/=; done.
Qed.

Lemma capacity_ok_step e s :
  threads_ok true s → capacity_ok s → capacity_ok (step e s).
Proof.
  intros Hok [Hle Hroom].
  destruct (step_moves e s) as [(Hth & Hp & _ & Hh)|Hmv].
  { unfold capacity_ok. rewrite Hp, Hh. done. }
  destruct Hmv as (t & _ & th & acts & [o' q' fs' th'] & extra & Hth & Hlt
                   & Hths & Hextra & Hq & _ & Hh & Hm & Ho & Hother).
  simpl in *. unfold capacity_ok. rewrite Hq, Hm, Hh.
  apply (proj1 Hok) in Hth as Hokt. clear Hok. rename Hokt into Hok.
  unfold view_of in Hlt.
  pose proof (ltrans_tasks _ _ _ _ _ _ _ _ _ _ Hlt) as Hgrow.
  split.
  - destruct Hgrow as [?|(task & k & -> & -> & ->)]; [lia|].
    apply thread_ok_at_push in Hok as [Hown Hr]. destruct (Hr I) as [r Hr'].
    rewrite length_app. simpl.
    assert (length (tasks (base (pool s))) < max_tasks (pool s)); [|lia].
    apply (Hroom t); [done|]. by rewrite Hr'.
  - intros u Hu Hchk. destruct (decide (u = t)) as [->|Hne].
    + rewrite own_app_eq in Hchk. rewrite Ho in Hu. subst o'.
      inversion Hlt; subst; simpl in *; try done;
        try (apply (Hroom t); [congruence|done]).
      apply (Hroom t); [done|].
      by destruct (own t (history s)) as [|[] ?].
    + rewrite own_app_ne in Hchk by done. rewrite Hother in Hu by done.
      destruct Hgrow as [?|(task & k & -> & -> & ->)].
      * specialize (Hroom u Hu Hchk). lia.
      * apply thread_ok_at_push in Hok as [Hown _].
        destruct Hne. by eapply owns_lock_unique.
Qed.

Lemma capacity_ok_run sched s :
  threads_ok true s → capacity_ok s → capacity_ok (run sched s).
Proof.
  revert s. induction sched as [|e sched IH]; intros s Hok Hcap; [done|].
  simpl. apply IH; [by apply threads_ok_step|by apply capacity_ok_step].
Qed.

Lemma capacity_ok_boot n programs : capacity_ok (boot n programs).
Proof.
  split; simpl; [lia|]. intros t Ht. by rewrite owns_lock_free in Ht.
Qed.

Lemma capacity_ok_task_pool_system n clients sched :
  capacity_ok (run sched (task_pool_system n clients)).
Proof.
  apply capacity_ok_run; [|apply capacity_ok_boot].
  apply (threads_ok_task_pool_system n clients []).
Qed.

(** *** The claims on the bounded pool *)

(** C1.  For every bounded pool and every schedule of its public
    submissions, the queue is never longer than [max_tasks]; and a step that
    makes the queue longer is the push of a thread that owns the mutex, that
    found [can_enqueue_unlocked()] true while owning it, and that has done
    nothing since but pass the assertion: the test is made under the lock
    that is used to push. *)
Theorem capacity_bound n clients sched :
  let s := run sched (task_pool_system n clients) in
  ThreadPool.size_unlocked (base (pool s)) ≤ TaskPool.get_max_task_num (pool s)
  ∧ ∀ e,
      ThreadPool.size_unlocked (base (pool s))
        < ThreadPool.size_unlocked (base (pool (step e s))) →
      ∃ t r,
        event_thread e = Some t
        ∧ queue_mutex (base (pool s)) = Some t
        ∧ TaskPool.can_enqueue_unlocked (pool s) = true
        ∧ own t (history s) = act_assert true :: act_capacity true true :: r.
Proof.
  intros s.
  pose proof (capacity_ok_task_pool_system n clients sched) as [Hle Hroom].
  pose proof (threads_ok_task_pool_system n clients sched) as Hok.
  fold s in Hle, Hroom, Hok. split; [done|].
  intros e Hlt. unfold ThreadPool.size_unlocked in Hlt.
  destruct (step_moves e s) as [(_ & Hp & _)|(t & He & Hmv)].
  { rewrite Hp in Hlt. lia. }
  destruct Hmv as (th & acts & [o' q' fs' th'] & extra & Hth & Hlts & _ & _
                   & Hq & _).
  simpl in Hq. rewrite Hq in Hlt.
  apply ltrans_tasks in Hlts as [?|(task & k & -> & -> & ->)]; [lia|].
  apply (proj1 Hok), thread_ok_at_push in Hth as [Hown Hr].
  destruct (Hr I) as [r Hr']. exists t, r. split_and!; try done.
  - by apply bool_decide_eq_true in Hown.
  - apply Nat.ltb_lt, (Hroom t); [done|]. by rewrite Hr'.
Qed.

(** C1 on a pool of one worker: the step that pushes the first Task. *)
Lemma capacity_bound_witness :
  let s := run (replicate 5 (ev_run 1))
             (task_pool_system 1 [[call_wait (λ _, returned 7)]]) in
  ∃ t r,
    event_thread (ev_run 1) = Some t
    ∧ queue_mutex (base (pool s)) = Some t
    ∧ TaskPool.can_enqueue_unlocked (pool s) = true
    ∧ own t (history s) = act_assert true :: act_capacity true true :: r.
Proof.
  apply (proj2 (capacity_bound 1 [[call_wait (λ _, returned 7)]]
                  (replicate 5 (ev_run 1))) (ev_run 1)).
  vm_compute. lia.
Defined.

Lemma ordered_app g l h : ordered g (l ++ h) → ordered g h.
Proof.
  induction l as [|a l IH]; [done|]. intros [_ H]. by apply IH.
Qed.

Lemma ordered_push h r :
  ordered true (act_push h :: r) →
  ∃ r', r = act_assert true :: act_capacity true true :: r'.
Proof.
  intros [Hb Hr]. destruct r as [|[] r]; try done.
  destruct b; [|done]. destruct Hr as [Ha _].
  destruct r as [|[] r]; try done. simpl in Ha.
  repeat case_match; try done. eauto.
Qed.

Lemma forallb_worker_action_push l h r :
  ¬ forallb worker_action (l ++ act_push h :: r).
Proof.
  rewrite forallb_app. by intros [_ H]%andb_True.
Qed.

(** C10.  Every public member of [task_pool] that submits a task is
    [task_pool::wait_to_enqueue] around some waiter, that is
    [thread_pool::wait_to_enqueue] with the capacity loop as its waiter;
    none of them is [enqueue] or [thread_pool::wait_to_enqueue] with a
    waiter of the caller.  So in a pool whose clients use the public members
    only, every push of every thread comes directly after the assertion and
    a test of the loop that found room under the lock. *)
Theorem public_submissions_gated (c : task_pool_call) :
  match inner_waiter c with
  | Some (w, f) =>
      task_pool_call_code c = TaskPool.wait_to_enqueue w f
      ∧ task_pool_call_code c = ThreadPool.wait_to_enqueue (capacity_loop w) f
  | None => c = call_reset
  end
  ∧ (∀ f, task_pool_call_code c ≠ ThreadPool.enqueue f)
  ∧ (∀ wait f,
       task_pool_call_code c = ThreadPool.wait_to_enqueue wait f →
       ∃ w, wait = capacity_loop w)
  ∧ ∀ n clients sched t th l h r,
      let s := run sched (task_pool_system n clients) in
      threads s !! t = Some th →
      own t (history s) = l ++ act_push h :: r →
      ∃ r', r = act_assert true :: act_capacity true true :: r'.
Proof.
  split_and!.
  - by destruct c.
  - by destruct c.
  - intros wait f Hc.
    destruct c; injection Hc as _ Hw; try done; rewrite <-Hw; eauto.
  - intros n clients sched t th l h r s Hth Hown.
    pose proof (threads_ok_task_pool_system n clients sched) as [Hok _].
    apply Hok in Hth. fold s in Hth. rewrite Hown in Hth.
    destruct th as [ph|cur code|].
    + destruct Hth as [Hh _]. by apply forallb_worker_action_push in Hh.
    + destruct Hth as [Hord _]. by apply ordered_app, ordered_push in Hord.
    + by apply ordered_app, ordered_push in Hth.
Qed.

(** C10 for [wait]: its code, and the push of the client of a pool of one
    worker. *)
Lemma public_submissions_gated_witness :
  (∃ w, capacity_loop (cv_wait (TaskPool.poll_predicate (λ _, true)))
        = capacity_loop w)
  ∧ ∃ r', [act_assert true; act_capacity true true; act_lock; act_pack 0]
          = act_assert true :: act_capacity true true :: r'.
Proof.
  pose proof (public_submissions_gated (call_wait (λ _, returned 7)))
    as (_ & _ & Hcode & Hpush).
  split.
  - apply (Hcode _ (λ _, returned 7)). reflexivity.
  - apply (Hpush 1 [[call_wait (λ _, returned 7)]] (replicate 6 (ev_run 1)) 1
             (client (Some {| shared_state := 0; stored_task := λ _, returned 7 |})
                [s_unlock; s_notify_one; s_return]) [] 0);
      reflexivity.
Defined.

(** *** The capacity is fixed *)

Lemma step_pool_shape e s :
  max_tasks (pool (step e s)) = max_tasks (pool s)
  ∧ (length (workers (base (pool (step e s)))) = length (workers (base (pool s)))
     ∨ length (workers (base (pool (step e s))))
       = length (workers (base (pool s))) `max` 1).
Proof.
  revert e s. apply (step_cases (λ _ s s',
    max_tasks (pool s') = max_tasks (pool s)
    ∧ (length (workers (base (pool s'))) = length (workers (base (pool s)))
       ∨ length (workers (base (pool s')))
         = length (workers (base (pool s))) `max` 1))); try by auto.
  - intros _ s t k s' _ _. unfold wake. intros.
    repeat case_match; simplify_eq; auto.
  - intros _ s t ph s' _ _ _.
    destruct ph; simpl; intros; repeat case_match; simplify_option_eq;
      repeat match goal with
      | H : acquire _ _ = Some _ |- _ => apply acquire_Some in H as [? ->]
      end; unfold release; simpl; repeat case_match; auto.
  - intros _ s t cur st k s' _ _ _.
    destruct st; simpl; intros; repeat case_match; simplify_option_eq;
      repeat match goal with
      | H : acquire _ _ = Some _ |- _ => apply acquire_Some in H as [? ->]
      end; unfold release; simpl; repeat case_match; auto.
    + destruct cur; simplify_eq/=; auto.
    + split; [done|]. right. by rewrite length_seq.
Qed.

Lemma pool_shape_run n programs sched :
  let s := run sched (boot n programs) in
  max_tasks (pool s) = n `max` 1
  ∧ length (workers (base (pool s))) = n `max` 1.
Proof.
  simpl.
  assert (∀ s, max_tasks (pool s) = n `max` 1
               ∧ length (workers (base (pool s))) = n `max` 1 →
               max_tasks (pool (run sched s)) = n `max` 1
               ∧ length (workers (base (pool (run sched s)))) = n `max` 1) as H.
  { induction sched as [|e sched IH]; intros s [Hm Hw]; [done|].
    simpl. apply IH. destruct (step_pool_shape e s) as [Hm' Hw'].
    split; [congruence|]. lia. }
  apply H. simpl. rewrite length_seq. lia.
Qed.

(** C7.  A pool constructed with worker count [n] has [max_tasks = max(n,1)],
    which is also the number of its workers; no step of any thread, the
    steps of [reset] included, changes either, and [get_max_task_num]
    returns this value in every state. *)
Theorem capacity_fixed n clients sched :
  let s := run sched (system n clients) in
  max_tasks (task_pool_new n 0) = n `max` 1
  ∧ max_tasks (pool s) = n `max` 1
  ∧ length (workers (base (pool s))) = max_tasks (pool s)
  ∧ TaskPool.get_max_task_num (pool s) = n `max` 1
  ∧ ∀ e, TaskPool.get_max_task_num (pool (step e s))
         = TaskPool.get_max_task_num (pool s).
Proof.
  intros s. destruct (pool_shape_run n (program <$> clients) sched) as [Hm Hw].
  fold (system n clients) in Hm, Hw. fold s in Hm, Hw.
  split_and!; try done; [congruence|].
  intros e. apply step_pool_shape.
Qed.

(** *** The queue is first in, first out *)

Lemma pushed_discards t (l : list handle) H :
  pushed (((λ a, (t, a)) <$> reverse (act_discard <$> l)) ++ H) = pushed H.
Proof.
  revert H. induction l as [|x l IH]; intros H; [done|].
  rewrite fmap_cons, reverse_cons, fmap_app, <-app_assoc. simpl.
  by rewrite IH.
Qed.

Lemma removed_discards t (l : list handle) H :
  removed (((λ a, (t, a)) <$> reverse (act_discard <$> l)) ++ H)
  = removed H ++ l.
Proof.
  revert H. induction l as [|x l IH]; intros H; [by rewrite app_nil_r|].
  rewrite fmap_cons, reverse_cons, fmap_app, <-app_assoc. simpl.
  rewrite IH. simpl. by rewrite <-app_assoc.
Qed.

Lemma fifo_ok_step e s : fifo_ok s → fifo_ok (step e s).
Proof.
  unfold fifo_ok, queued. intros Hfifo.
  destruct (step_moves e s) as [(_ & Hp & _ & Hh)|Hmv].
  { by rewrite Hp, Hh. }
  destruct Hmv as (t & _ & th & acts & [o' q' fs' th'] & extra & Hth & Hlt
                   & _ & _ & Hq & _ & Hh & _).
  simpl in Hq. rewrite Hq, Hh. unfold view_of in Hlt. clear Hq Hh Hth.
  revert Hfifo Hlt. generalize (tasks (base (pool s))) as q0.
  generalize (history s) as H0. intros H0 q0 Hfifo Hlt.
  inversion Hlt; subst; simpl; try done.
  - by rewrite Hfifo, fmap_app, app_assoc.
  - change (list_fmap ?A ?B ?f ?l) with (f <$> l).
    rewrite list_fmap_compose, pushed_discards, removed_discards.
    by rewrite app_nil_r.
  - by rewrite Hfifo, fmap_cons, <-app_assoc.
Qed.

Lemma fifo_ok_run sched s : fifo_ok s → fifo_ok (run sched s).
Proof.
  revert s. induction sched as [|e sched IH]; intros s H; [done|].
  simpl. by apply IH, fifo_ok_step.
Qed.

(** *** Handles stay valid *)

Lemma holds_valid_mono n n' th : n ≤ n' → holds_valid n th → holds_valid n' th.
Proof.
  intros Hle. destruct th as [[]|[]|]; simpl; try done; lia.
Qed.

Lemma ltrans_handles m o q fs th acts o' q' fs' th' :
  ltrans m (View o q fs th) acts (View o' q' fs' th') →
  Forall (λ c, closure_handle c < length fs) q →
  holds_valid (length fs) th →
  length fs ≤ length fs'
  ∧ Forall (λ c, closure_handle c < length fs') q'
  ∧ holds_valid (length fs') th'.
Proof.
  inversion 1; subst; simpl; intros Hq Hth;
    rewrite ?closure_call_length; try done.
  - rewrite length_app. simpl. split_and!; [lia| |lia].
    eapply Forall_impl; [done|]. simpl. intros. lia.
  - split_and!; try done. apply Forall_app. split; [done|].
    by apply Forall_singleton.
  - by apply Forall_cons in Hq as [??].
Qed.

Lemma handles_ok_step e s : handles_ok s → handles_ok (step e s).
Proof.
  intros [Hq Hths]. unfold handles_ok.
  destruct (step_moves e s) as [(Hth & Hp & Hf & _)|Hmv].
  { by rewrite Hth, Hp, Hf. }
  destruct Hmv as (t & _ & th & acts & [o' q' fs' th'] & extra & Hth & Hlt
                   & Hths' & Hextra & Hq' & Hf & _).
  simpl in *. rewrite Hq', Hf. unfold view_of in Hlt.
  eapply ltrans_handles in Hlt as (Hle & Hq'' & Hth'); eauto.
  split; [done|]. intros u thu Hu.
  destruct (moved_lookup _ _ _ _ _ _ _ _ Hth Hths' Hextra Hu)
    as [[-> ->]|[[Hne Hold]|(Hne & _ & ->)]]; simpl in *; try done.
  eapply holds_valid_mono; eauto.
Qed.

Lemma handles_ok_run sched s : handles_ok s → handles_ok (run sched s).
Proof.
  revert s. induction sched as [|e sched IH]; intros s H; [done|].
  simpl. by apply IH, handles_ok_step.
Qed.

Lemma handles_ok_boot n programs : handles_ok (boot n programs).
Proof.
  split; [by apply Forall_nil|]. intros t th Hlk. simpl in Hlk.
  apply lookup_app_Some in Hlk as [Hlk|[_ Hlk]].
  - unfold spawned in Hlk. by apply lookup_replicate in Hlk as [-> _].
  - by apply list_lookup_fmap_Some in Hlk as (code & -> & _).
Qed.




(** *** Failures of tasks *)

Lemma elem_of_own t a H : (t, a) ∈ H → a ∈ own t H.
Proof.
  intros Hin. unfold own. apply list_elem_of_fmap. exists (t, a).
  split; [done|]. by apply list_elem_of_filter.
Qed.

Lemma ordered_no_exec g h x r : ordered g h → act_exec x r ∉ h.
Proof.
  induction h as [|b h IH]; intros Hord Hin; [by apply elem_of_nil in Hin|].
  destruct Hord as [Hb Hord].
  apply elem_of_cons in Hin as [<-|Hin]; [|by apply IH].
  by destruct h.
Qed.

Lemma worker_action_exec h x r :
  forallb worker_action h → act_exec x r ∈ h → r = normal.
Proof.
  intros Hall Hin. apply Is_true_true, forallb_forall with (x := act_exec x r) in Hall.
  - by destruct r.
  - by apply list_elem_of_In.
Qed.

(** C6.  In every pool and every schedule: no worker is ever terminated by
    a task; every call of a queued closure returns normally; and when a
    worker runs a task whose callable raises [e], the failure is stored in
    the shared state of that task, where [future::get] finds it, no other
    shared state, no other thread and no queued task is touched, and the
    worker is back at the head of its loop. *)
Theorem failure_captured n clients sched :
  let s := run sched (system n clients) in
  (∀ t e, threads s !! t ≠ Some (worker (wk_terminated e)))
  ∧ (∀ t h r, (t, act_exec h r) ∈ history s → r = normal)
  ∧ ∀ t task e,
      aborted s = false →
      threads s !! t = Some (worker (wk_exec (run_task task))) →
      stored_task task () = raised e →
      let s' := step (ev_run t) s in
      future_get (futures s') (shared_state task) = Some (raised e)
      ∧ (∀ h, h ≠ shared_state task → futures s' !! h = futures s !! h)
      ∧ threads s' !! t = Some (worker wk_lock)
      ∧ (∀ u, u ≠ t → threads s' !! u = threads s !! u)
      ∧ tasks (base (pool s')) = tasks (base (pool s)).
Proof.
  intros s.
  pose proof (threads_ok_run false sched (system n clients)) as [Hok Hnone].
  { by apply threads_ok_system. }
  pose proof (handles_ok_run sched _ (handles_ok_boot n (program <$> clients)))
    as [_ Hvalid].
  fold (system n clients) in Hvalid. fold s in Hok, Hnone, Hvalid.
  split_and!.
  - intros t e Hth. by apply Hok in Hth as (_ & _ & ?).
  - intros t h r Hin%elem_of_own.
    destruct (threads s !! t) as [[ph|cur code|]|] eqn:Hth.
    + apply Hok in Hth as (Hall & _). by eapply worker_action_exec.
    + apply Hok in Hth as (Hord & _). by eapply ordered_no_exec in Hord.
    + apply Hok in Hth. by eapply ordered_no_exec in Hth.
    + rewrite Hnone in Hin by done. by apply elem_of_nil in Hin.
  - intros t task e Hab Hth Hraise s'.
    apply Hvalid in Hth as Hh. simpl in Hh.
    apply lookup_lt_Some in Hth as Hlt.
    assert (s' = set_thread t (worker wk_lock)
                   (notify_all waits_on_enqueue_condition
                     (log t (act_exec (shared_state task) normal)
                       (set_futures
                          (<[shared_state task := Some (raised e)]> (futures s))
                          s)))) as ->.
    { unfold s', step, run_thread. rewrite Hab, Hth. simpl.
      unfold packaged_task_invoke. by rewrite Hraise. }
    autounfold with updates.
    cbn [futures threads pool base tasks]. split_and!; try done.
    + unfold future_get. by rewrite list_lookup_insert_eq.
    + intros h Hne. by rewrite list_lookup_insert_ne.
    + by rewrite list_lookup_insert_eq.
    + intros u Hne. by rewrite list_lookup_insert_ne.
Qed.

(** C6 on a pool of one worker that has popped a Task whose callable
    raises 3. *)
Lemma failure_captured_witness :
  let s :=
    run (replicate 8 (ev_run 1) ++ replicate 3 (ev_run 0))
      (system 1 [[submit noop_waiter (λ _, raised 3)]]) in
  let s' := step (ev_run 0) s in
  future_get (futures s') 0 = Some (raised 3)
  ∧ (∀ h, h ≠ 0 → futures s' !! h = futures s !! h)
  ∧ threads s' !! 0 = Some (worker wk_lock)
  ∧ (∀ u, u ≠ 0 → threads s' !! u = threads s !! u)
  ∧ tasks (base (pool s')) = tasks (base (pool s)).
Proof.
  apply (proj2 (proj2 (failure_captured 1 [[submit noop_waiter (λ _, raised 3)]]
                         (replicate 8 (ev_run 1) ++ replicate 3 (ev_run 0))))
           0 {| shared_state := 0; stored_task := λ _, raised 3 |} 3);
    reflexivity.
Defined.

(** *** Clients of one family *)

Lemma family_ordered_cons F b h :
  newest (family_before F b) true h → family_ordered F h →
  family_ordered F (b :: h).
Proof. destruct h; simpl; auto. Qed.

Arguments family_ordered : simpl never.

Ltac family_easy :=
  apply family_ordered_cons; [|done];
  match goal with
  | F : family, h : list action |- _ => by destruct F, h
  end.

Ltac family_tac :=
  apply family_ordered_cons; [|done]; simpl; newest_tac.

Lemma family_step F m o q fs th acts o' q' fs' th' h :
  family_ok F o th h →
  ltrans m (View o q fs th) acts (View o' q' fs' th') →
  family_ok F o' th' (acts ++ h).
Proof.
  intros Hok Hlt. destruct th as [ph|cur code|]; try done.
  destruct Hok as (Hord & pg & rest & -> & Hpg & Hrest).
  destruct pg; simpl in *; try done.
  - (* between calls *)
    destruct rest as [|[w f|] rest]; simpl in *; try done.
    + inversion Hlt.
    + apply andb_True in Hrest as [Hw Hrest]. inversion Hlt; subst.
      split; [family_easy|]. by exists (locking w), rest.
  - (* at the lock *)
    inversion Hlt; subst. split; [family_easy|].
    by exists (entering wait), rest.
  - (* at the call of the waiter *)
    destruct Hpg as (Hw & -> & Hnew). inversion Hlt; subst.
    split; [done|]. destruct F as [|timed]; destruct wait; try done.
    + by exists (waiting []), rest.
    + exists (waiting [s_while_full wait]), rest. simpl. split_and!; try done.
      exists pp_test, wait. simpl. split_and!; try done. newest_tac.
  - (* inside the waiter *)
    destruct F as [|timed].
    + destruct Hpg as (-> & -> & Hnew). inversion Hlt; subst.
      split; [family_tac|]. by exists pushing, rest.
    + destruct Hpg as (pp & w & -> & Hw & Hpp).
      destruct pp; simpl in *.
      * destruct Hpp as [-> Hnew]. inversion Hlt; subst.
        -- split; [family_tac|]. exists (waiting []), rest. simpl.
           split_and!; try done. by exists pp_passed, w.
        -- split; [family_tac|].
           exists (waiting [s_wait w; s_while_full w]), rest. simpl.
           split_and!; try done. by exists pp_call, w.
      * destruct Hpp as [-> Hnew]. inversion Hlt; subst. split; [done|].
        destruct w; try done; simpl in *.
        -- exists (waiting [s_pred p None; s_while_full (cv_wait p)]), rest.
           split_and!; try done. exists (pp_pred p None), (cv_wait p).
           simpl. split_and!; try done. newest_tac.
        -- eexists (waiting [s_pred p _; s_while_full (cv_wait_for d p)]), rest.
           split_and!; try done. eexists (pp_pred p _), (cv_wait_for d p).
           simpl. split_and!; try done. newest_tac.
        -- eexists (waiting [s_pred p _; s_while_full (cv_wait_until abs p)]), rest.
           split_and!; try done. eexists (pp_pred p _), (cv_wait_until abs p).
           simpl. split_and!; try done. newest_tac.
      * destruct Hpp as (-> & Hnew & Hdl). inversion Hlt; subst.
        -- split; [family_tac|].
           exists (waiting [s_while_full w]), rest. simpl.
           split_and!; try done. by exists pp_test, w.
        -- split.
           { apply family_ordered_cons; [done|]. family_tac. }
           exists (waiting [s_blocked p deadline; s_while_full w]), rest. simpl.
           split_and!; try done. by exists (pp_blocked p deadline), w.
      * destruct Hpp as (-> & Hnew & Hdl). inversion Hlt; subst.
        assert (is_timeout kind → timed) as Hto.
        { destruct kind; try done. intros _. auto. }
        split.
        { apply family_ordered_cons; [|done]. simpl.
          eapply newest_mono; [exact Hnew| |done].
          intros []; try done. intros _. simpl.
          destruct (is_timeout kind); [|done]. by destruct timed; [|destruct Hto]. }
        exists (waiting [s_relock p deadline (is_timeout kind); s_while_full w]), rest.
        simpl. split_and!; try done.
        exists (pp_relock p deadline (is_timeout kind)), w.
        simpl. split_and!; try done. by apply bool_decide_pack.
      * destruct Hpp as (-> & Hnew & Hdl & Hto). inversion Hlt; subst.
        -- split; [family_tac|].
           exists (waiting [s_pred p deadline; s_while_full w]), rest. simpl.
           split_and!; try done. by exists (pp_pred p deadline), w.
        -- split.
           { apply family_ordered_cons; [|family_tac]. simpl.
             by destruct timed; [|destruct Hto]. }
           exists (waiting [s_while_full w]), rest. simpl.
           split_and!; try done. exists pp_test, w.
           split_and!; try done. simpl. by destruct timed; [|destruct Hto].
      * destruct Hpp as [-> Hnew]. inversion Hlt; subst.
        split; [family_tac|]. by exists pushing, rest.
  - inversion Hlt; subst. split; [family_easy|]. by exists unlocking, rest.
  - inversion Hlt; subst. split; [family_easy|]. by exists notifying, rest.
  - inversion Hlt; subst. split; [family_easy|]. by exists returning, rest.
  - inversion Hlt; subst. split; [family_easy|]. by exists idle, rest.
Qed.

Lemma family_at_step F t e s : family_at F t s → family_at F t (step e s).
Proof.
  intros (th & Hth & Hok). unfold family_at.
  destruct (step_moves e s) as [(Hths & Hp & _ & Hh)|Hmv].
  { rewrite Hths, Hp, Hh. eauto. }
  destruct Hmv as (u & _ & thu & acts & [o' q' fs' th'] & extra & Hu & Hlt
                   & Hths & _ & _ & _ & Hh & _ & Ho & Hother).
  simpl in *. apply lookup_lt_Some in Hth as Hlen.
  rewrite Hths, Hh, lookup_app_l by by rewrite length_insert.
  destruct (decide (t = u)) as [->|Hne].
  - rewrite list_lookup_insert_eq by done. eexists. split; [done|].
    rewrite own_app_eq, Ho. simplify_eq. by eapply family_step.
  - rewrite list_lookup_insert_ne by done. exists th. split; [done|].
    by rewrite own_app_ne, Hother.
Qed.

Lemma family_at_run F t sched s : family_at F t s → family_at F t (run sched s).
Proof.
  revert s. induction sched as [|e sched IH]; intros s H; [done|].
  simpl. by apply IH, family_at_step.
Qed.

Lemma family_at_system F n others cs more :
  forallb (in_family F) cs →
  family_at F (client_tid n (length others)) (system n (others ++ cs :: more)).
Proof.
  intros Hcs. exists (client None (program cs)). split.
  - unfold system, boot, client_tid, spawned. simpl.
    rewrite lookup_app_r; rewrite length_replicate; [|lia].
    rewrite !fmap_app, !fmap_cons.
    rewrite lookup_app_r; rewrite !length_fmap; [|lia].
    by replace (n `max` 1 + length others - (n `max` 1) `max` 1 - length others)
      with 0 by lia.
  - simpl. split; [done|]. by exists idle, cs.
Qed.

(** *** Single steps of a client, on explicit states *)

Lemma owns_lock_self t tp : queue_mutex tp = Some t → owns_lock t tp = true.
Proof. intros H. unfold owns_lock. by apply bool_decide_eq_true. Qed.

Lemma release_self t tp :
  queue_mutex tp = Some t → release t tp = set_mutex None tp.
Proof. intros H. unfold release. by rewrite owns_lock_self. Qed.

Arguments owns_lock : simpl never.
Arguments release : simpl never.

Ltac step_tac :=
  intros;
  repeat match goal with
  | H : _ < _ |- _ => apply Nat.ltb_lt in H
  | H : _ ≤ length _ |- _ => apply Nat.ltb_ge in H
  | H : _ ≤ _ |- _ => apply Nat.leb_le in H
  end;
  subst; unfold step, run_thread, wake; simpl in *;
  repeat match goal with
  | H : _ !! _ = Some _ |- _ => rewrite H
  end;
  simpl; autounfold with updates;
  unfold TaskPool.can_enqueue_unlocked, ThreadPool.size_unlocked; simpl;
  repeat match goal with
  | H : _ = _ |- _ => rewrite H
  end;
  simpl; rewrite ?owns_lock_self, ?release_self by done; try done.

Section steps.
Context (t : tid) (wks : list tid) (q : list closure) (stp : bool) (m : nat).
Context (fs : shared_states) (ths : list thread) (ntf : list tid).
Context (clk : nat) (H : list (tid * action)).
Context (cur : option packaged_task) (k : list stmt).

Lemma step_pack mx f :
  ths !! t = Some (client cur (s_pack f :: k)) →
  step (ev_run t) (mk_state wks q mx stp m fs ths ntf clk H)
  = mk_state wks q mx stp m (fs ++ [None])
      (<[t := client (Some {| shared_state := length fs; stored_task := f |}) k]> ths)
      ntf clk ((t, act_pack (length fs)) :: H).
Proof. step_tac. Qed.

Lemma step_lock :
  ths !! t = Some (client cur (s_lock :: k)) →
  step (ev_run t) (mk_state wks q None stp m fs ths ntf clk H)
  = mk_state wks q (Some t) stp m fs (<[t := client cur k]> ths) ntf clk
      ((t, act_lock) :: H).
Proof. step_tac. Qed.

Lemma step_wait mx w :
  ths !! t = Some (client cur (s_wait w :: k)) →
  step (ev_run t) (mk_state wks q mx stp m fs ths ntf clk H)
  = mk_state wks q mx stp m fs
      (<[t := client cur (waiter_body clk w ++ k)]> ths) ntf clk H.
Proof. step_tac. Qed.

Lemma step_assert :
  ths !! t = Some (client cur (s_assert_owns :: k)) →
  step (ev_run t) (mk_state wks q (Some t) stp m fs ths ntf clk H)
  = mk_state wks q (Some t) stp m fs (<[t := client cur k]> ths) ntf clk
      ((t, act_assert true) :: H).
Proof. step_tac. Qed.

Lemma step_push mx task :
  ths !! t = Some (client (Some task) (s_push :: k)) →
  step (ev_run t) (mk_state wks q mx stp m fs ths ntf clk H)
  = mk_state wks (q ++ [run_task task]) mx stp m fs
      (<[t := client (Some task) k]> ths) ntf clk
      ((t, act_push (shared_state task)) :: H).
Proof. step_tac. Qed.

Lemma step_unlock :
  ths !! t = Some (client cur (s_unlock :: k)) →
  step (ev_run t) (mk_state wks q (Some t) stp m fs ths ntf clk H)
  = mk_state wks q None stp m fs (<[t := client cur k]> ths) ntf clk
      ((t, act_unlock) :: H).
Proof. step_tac. Qed.

Lemma step_notify_one mx :
  ths !! t = Some (client cur (s_notify_one :: k)) →
  step (ev_run t) (mk_state wks q mx stp m fs ths ntf clk H)
  = mk_state wks q mx stp m fs (<[t := client cur k]> ths)
      (option_list (head (waiters_from waits_on_condition ntf 0 ths)) ++ ntf)
      clk
      ((t, act_notify_one (head (waiters_from waits_on_condition ntf 0 ths)))
       :: H).
Proof. step_tac. Qed.

Lemma step_return mx task :
  ths !! t = Some (client (Some task) (s_return :: k)) →
  step (ev_run t) (mk_state wks q mx stp m fs ths ntf clk H)
  = mk_state wks q mx stp m fs (<[t := client None k]> ths) ntf clk
      ((t, act_return (shared_state task)) :: H).
Proof. step_tac. Qed.

Lemma step_while_room w :
  ths !! t = Some (client cur (s_while_full w :: k)) →
  length q < m →
  step (ev_run t) (mk_state wks q (Some t) stp m fs ths ntf clk H)
  = mk_state wks q (Some t) stp m fs (<[t := client cur k]> ths) ntf clk
      ((t, act_capacity true true) :: H).
Proof. step_tac. Qed.

Lemma step_while_full w :
  ths !! t = Some (client cur (s_while_full w :: k)) →
  m ≤ length q →
  step (ev_run t) (mk_state wks q (Some t) stp m fs ths ntf clk H)
  = mk_state wks q (Some t) stp m fs
      (<[t := client cur (s_wait w :: s_while_full w :: k)]> ths) ntf clk
      ((t, act_capacity false true) :: H).
Proof. step_tac. Qed.

Lemma step_pred_block p dl :
  ths !! t = Some (client cur (s_pred p dl :: k)) →
  p (pool (mk_state wks q (Some t) stp m fs ths ntf clk H)) clk = false →
  step (ev_run t) (mk_state wks q (Some t) stp m fs ths ntf clk H)
  = mk_state wks q None stp m fs
      (<[t := client cur (s_blocked p dl :: k)]> ths) ntf clk
      ((t, act_block) :: (t, act_pred false true) :: H).
Proof. step_tac. Qed.

Lemma step_timeout p d :
  ths !! t = Some (client cur (s_blocked p (Some d) :: k)) →
  d ≤ clk →
  step (ev_timeout t) (mk_state wks q None stp m fs ths ntf clk H)
  = mk_state wks q None stp m fs
      (<[t := client cur (s_relock p (Some d) true :: k)]> ths)
      (filter (λ u, u ≠ t) ntf) clk ((t, act_wake by_timeout) :: H).
Proof. step_tac. Qed.

Lemma step_relock_expired p dl :
  ths !! t = Some (client cur (s_relock p dl true :: k)) →
  step (ev_run t) (mk_state wks q None stp m fs ths ntf clk H)
  = mk_state wks q (Some t) stp m fs (<[t := client cur k]> ths) ntf clk
      ((t, act_expired
             (p (pool (mk_state wks q (Some t) stp m fs ths ntf clk H)) clk))
       :: (t, act_relock true) :: H).
Proof. step_tac. Qed.

End steps.

(** *** enqueue *)

Lemma waiters_from_insert sel pending i ths t th th' :
  ths !! t = Some th → sel th = sel th' →
  waiters_from sel pending i (<[t := th']> ths)
  = waiters_from sel pending i ths.
Proof.
  revert i t. induction ths as [|x ths IH]; intros i t Hth Hsel; [done|].
  destruct t as [|t]; simpl in *.
  - simplify_eq. by rewrite Hsel.
  - by rewrite IH.
Qed.

Ltac next_step L :=
  erewrite L;
    [| by (rewrite ?list_lookup_insert_eq by done;
           first [eassumption | reflexivity]) ..];
  rewrite ?list_insert_insert_eq.

Lemma run_enqueue s t cur f k :
  aborted s = false →
  queue_mutex (base (pool s)) = None →
  threads s !! t = Some (client cur (ThreadPool.enqueue f ++ k)) →
  run (replicate 8 (ev_run t)) s = (enqueue_spec t f k s).2.
Proof.
  destruct s as [[[wks q mx stp] m] fs ths ntf clk ab H]. simpl.
  intros -> -> Hth. apply lookup_lt_Some in Hth as Hlen.
  unfold ThreadPool.enqueue, ThreadPool.wait_to_enqueue in Hth. simpl in Hth.
  change (run (replicate 8 (ev_run t)) ?s)
    with (step (ev_run t) (step (ev_run t) (step (ev_run t) (step (ev_run t)
           (step (ev_run t) (step (ev_run t) (step (ev_run t)
             (step (ev_run t) s)))))))).
  fold (mk_state wks q None stp m fs ths ntf clk H).
  next_step step_pack. next_step step_lock. next_step step_wait. simpl.
  next_step step_assert. next_step step_push. next_step step_unlock.
  next_step step_notify_one. next_step step_return.
  unfold enqueue_spec, notify_one, waiters, mk_state. simpl.
  by erewrite waiters_from_insert.
Qed.




(** *** thread_pool::wait_to_enqueue *)



Lemma owns_lock_Some t tp : owns_lock t tp = true → queue_mutex tp = Some t.
Proof. unfold owns_lock. by intros ?%bool_decide_eq_true. Qed.




(** ** The clients of [poll] *)

Lemma ordered_adjacent g h a b : ordered g h → adjacent a b h → before g b a.
Proof.
  intros Ho (l & r & ->). induction l as [|x l IH].
  - by destruct Ho.
  - apply IH. by destruct Ho.
Qed.

Lemma family_adjacent F h a b :
  family_ordered F h → adjacent a b h → family_before F b a.
Proof.
  intros Ho (l & r & ->). induction l as [|x l IH].
  - by destruct Ho.
  - apply IH. by destruct Ho.
Qed.

Lemma poll_call_in_family timed c :
  poll_call timed c = in_family (fam_poll timed) (as_call c).
Proof. by destruct c. Qed.

(** The thread of a client of the bounded pool that only makes calls of the
    [poll] family is a client thread throughout, and each of its actions
    follows one that both [before] and [family_before] allow. *)
Lemma poll_client timed n others calls more sched :
  forallb (poll_call timed) calls →
  let s := run sched (task_pool_system n (others ++ calls :: more)) in
  let t := client_tid n (length others) in
  (∃ cur code, threads s !! t = Some (client cur code))
  ∧ ∀ a b, adjacent a b (own t (history s)) →
      before true b a && family_before (fam_poll timed) b a.
Proof.
  intros Hcalls s t.
  assert (family_at (fam_poll timed) t s) as (th & Hth & Hfam).
  { unfold s, t. rewrite task_pool_system_system, fmap_app, fmap_cons.
    rewrite <-(length_fmap (fmap (M:=list) as_call) others).
    apply family_at_run, family_at_system.
    induction calls as [|c calls IH]; [done|].
    simpl in *. apply andb_True in Hcalls as [Hc Hcalls].
    apply andb_True. split; [by rewrite <-poll_call_in_family|by apply IH]. }
  pose proof (threads_ok_task_pool_system n (others ++ calls :: more) sched)
    as [Hok _].
  specialize (Hok t th Hth). fold s in Hok.
  destruct th as [|cur code|]; try done.
  split; [by eauto|]. intros a b Hab.
  destruct Hfam as [Hfam _], Hok as [Hok _].
  apply andb_True. split.
  - by eapply ordered_adjacent.
  - by eapply family_adjacent.
Qed.

Ltac poll_step_tac :=
  repeat match goal with
  | x : bool |- _ => destruct x
  | k : wake_kind |- _ => destruct k
  end;
  simpl in *; try done;
  split_and!; intros; simplify_eq/=; eauto.

Lemma poll_step_allowed a b :
  before true b a && family_before (fam_poll false) b a → poll_step a b.
Proof.
  intros [H1 H2]%andb_True. unfold poll_step.
  destruct a, b; simpl in H1, H2; try done; poll_step_tac.
Qed.

Lemma timed_poll_step_allowed a b :
  before true b a && family_before (fam_poll true) b a → timed_poll_step a b.
Proof.
  intros [H1 H2]%andb_True. unfold timed_poll_step.
  destruct a, b; simpl in H1, H2; try done; poll_step_tac.
Qed.

(** A call that goes through [task_pool::wait_to_enqueue], run alone from a
    state in which the mutex is free and the queue has room: the waiter is
    not entered. *)
Lemma run_gated_room s t cur w f k :
  aborted s = false →
  queue_mutex (base (pool s)) = None →
  threads s !! t = Some (client cur (TaskPool.wait_to_enqueue w f ++ k)) →
  TaskPool.can_enqueue_unlocked (pool s) = true →
  let s' := run (replicate 6 (ev_run t)) s in
  let task := {| shared_state := length (futures s); stored_task := f |} in
  tasks (base (pool s')) = tasks (base (pool s)) ++ [run_task task]
  ∧ history s'
    = [(t, act_push (length (futures s))); (t, act_assert true);
       (t, act_capacity true true); (t, act_lock);
       (t, act_pack (length (futures s)))] ++ history s.
Proof.
  destruct s as [[[wks q mx stp] m] fs ths ntf clk ab H]. simpl.
  intros -> -> Hth Hroom. apply lookup_lt_Some in Hth as Hlen.
  apply Nat.ltb_lt in Hroom. simpl in Hroom.
  unfold ThreadPool.size_unlocked in Hroom. simpl in Hroom.
  unfold TaskPool.wait_to_enqueue, ThreadPool.wait_to_enqueue in Hth.
  simpl in Hth.
  change (run (replicate 6 (ev_run t)) ?s)
    with (step (ev_run t) (step (ev_run t) (step (ev_run t) (step (ev_run t)
           (step (ev_run t) (step (ev_run t) s)))))).
  fold (mk_state wks q None stp m fs ths ntf clk H).
  next_step step_pack. next_step step_lock. next_step step_wait. simpl.
  next_step step_while_room. next_step step_assert. next_step step_push.
  done.
Qed.

(** C5 as stated fails when the queue has room at the first test: the
    combined condition of this call never holds, it is never evaluated, and
    the Task is admitted. *)
Lemma poll_skips_predicate_counterexample :
  let s :=
    run (replicate 6 (ev_run 1))
      (task_pool_system 1 [[call_poll (λ _, false) (λ _, returned 7)]]) in
  (∀ P clk, TaskPool.poll_predicate (λ _, false) P clk = false)
  ∧ queued s = [0]
  ∧ own 1 (history s)
    = [act_push 0; act_assert true; act_capacity true true; act_lock;
       act_pack 0].
Proof. done. Qed.

(** C5 (amended).  [can_enqueue_unlocked()] is true exactly when the queue
    is shorter than [max_tasks], and the condition that [poll] waits on is
    the conjunction of the predicate of the caller and
    [can_enqueue_unlocked()].  [poll] is [task_pool::wait_to_enqueue] around
    that wait: run from a state in which the mutex is free and the queue has
    room, it admits the Task after one test of the capacity, whatever the
    predicate.  In every schedule, a client that only calls [poll] and
    [wait] pushes directly after the assertion, which directly follows a
    test of the capacity that found room under the lock; it evaluates the
    combined condition under the lock after a test that found the queue
    full and again after every wake, blocks when it does not hold, and
    tests the capacity again when it holds. *)
Theorem poll_admission poller f :
  (∀ P, TaskPool.can_enqueue_unlocked P = true
        ↔ ThreadPool.size_unlocked (base P) < max_tasks P)
  ∧ (∀ P clk, TaskPool.poll_predicate poller P clk = true
              ↔ poller clk = true ∧ TaskPool.can_enqueue_unlocked P = true)
  ∧ (∀ s t cur k,
       aborted s = false →
       queue_mutex (base (pool s)) = None →
       threads s !! t = Some (client cur (TaskPool.poll poller f ++ k)) →
       TaskPool.can_enqueue_unlocked (pool s) = true →
       let s' := run (replicate 6 (ev_run t)) s in
       let task := {| shared_state := length (futures s); stored_task := f |} in
       tasks (base (pool s')) = tasks (base (pool s)) ++ [run_task task]
       ∧ history s'
         = [(t, act_push (length (futures s))); (t, act_assert true);
            (t, act_capacity true true); (t, act_lock);
            (t, act_pack (length (futures s)))] ++ history s)
  ∧ ∀ n others calls more sched,
      forallb (poll_call false) calls →
      let s :=
        run sched
          (task_pool_system n (others ++ (call_poll poller f :: calls) :: more)) in
      let t := client_tid n (length others) in
      (∃ cur code, threads s !! t = Some (client cur code))
      ∧ ∀ a b, adjacent a b (own t (history s)) → poll_step a b.
Proof.
  split_and!.
  - intros P. apply Nat.ltb_lt.
  - intros P clk. unfold TaskPool.poll_predicate.
    rewrite andb_true_iff. done.
  - intros s t cur k Hab Hmx Hth Hroom. by eapply run_gated_room.
  - intros n others calls more sched Hcalls.
    destruct (poll_client false n others (call_poll poller f :: calls) more
                sched) as [Hth Hadj]; [done|].
    split; [done|]. intros a b Hab. by apply poll_step_allowed, Hadj.
Qed.

(** The parts of C5 on a pool of one worker and a client that makes one
    call of [poll] with a predicate that is always false. *)
Lemma poll_admission_witness :
  let s0 := task_pool_system 1 [[call_poll (λ _, false) (λ _, returned 7)]] in
  let s := run (replicate 6 (ev_run 1)) s0 in
  (tasks (base (pool s))
   = tasks (base (pool s0))
     ++ [run_task {| shared_state := 0; stored_task := λ _, returned 7 |}]
   ∧ history s
     = [(1, act_push 0); (1, act_assert true); (1, act_capacity true true);
        (1, act_lock); (1, act_pack 0)] ++ history s0)
  ∧ (∃ cur code, threads s !! 1 = Some (client cur code))
  ∧ poll_step act_lock (act_capacity true true).
Proof.
  intros s0 s.
  pose proof (poll_admission (λ _, false) (λ _, returned 7))
    as (_ & _ & Hsolo & Hall).
  split; [|split].
  - apply (Hsolo s0 1 None []); reflexivity.
  - apply (Hall 1 [] [] [] (replicate 6 (ev_run 1)) I).
  - apply (proj2 (Hall 1 [] [] [] (replicate 6 (ev_run 1)) I)).
    exists [act_push 0; act_assert true], [act_pack 0]. reflexivity.
Defined.

(** *** The timed waits *)

Lemma poll_predicate_full poller P clk :
  TaskPool.can_enqueue_unlocked P = false →
  TaskPool.poll_predicate poller P clk = false.
Proof. intros H. unfold TaskPool.poll_predicate. by rewrite H, andb_false_r. Qed.


(** The deadline of a submitter blocked in a timed wait has passed, the
    mutex is free and the queue is full: the timed wait returns, the loop
    of [task_pool::wait_to_enqueue] finds the queue full and calls the
    waiter again, and the submitter blocks again. *)
Lemma run_expired_full s t cur w poller d dl k :
  aborted s = false →
  queue_mutex (base (pool s)) = None →
  threads s !! t
    = Some (client cur (s_blocked (TaskPool.poll_predicate poller) (Some d)
                        :: s_while_full w :: k)) →
  d ≤ now s →
  waiter_body (now s) w = [s_pred (TaskPool.poll_predicate poller) dl] →
  TaskPool.can_enqueue_unlocked (pool s) = false →
  let s' := run (ev_timeout t :: replicate 4 (ev_run t)) s in
  threads s' !! t
    = Some (client cur (s_blocked (TaskPool.poll_predicate poller) dl
                        :: s_while_full w :: k))
  ∧ aborted s' = false
  ∧ queue_mutex (base (pool s')) = None
  ∧ tasks (base (pool s')) = tasks (base (pool s))
  ∧ max_tasks (pool s') = max_tasks (pool s)
  ∧ now s' = now s
  ∧ history s'
    = [(t, act_block); (t, act_pred false true); (t, act_capacity false true);
       (t, act_expired false); (t, act_relock true); (t, act_wake by_timeout)]
      ++ history s.
Proof.
  destruct s as [[[wks q mx stp] m] fs ths ntf clk ab H]. simpl.
  intros -> -> Hth Hd Hw Hfull. apply lookup_lt_Some in Hth as Hlen.
  change (run (replicate 4 (ev_run t)) ?s)
    with (step (ev_run t) (step (ev_run t) (step (ev_run t)
           (step (ev_run t) s)))).
  fold (mk_state wks q None stp m fs ths ntf clk H).
  next_step step_timeout. next_step step_relock_expired.
  rewrite poll_predicate_full by done.
  erewrite step_while_full;
    [|by rewrite list_lookup_insert_eq|by apply Nat.ltb_ge in Hfull].
  rewrite list_insert_insert_eq.
  next_step step_wait. rewrite Hw. simpl.
  erewrite step_pred_block;
    [|by rewrite list_lookup_insert_eq|by apply poll_predicate_full].
  rewrite list_insert_insert_eq. simpl.
  by rewrite list_lookup_insert_eq.
Qed.

(** The same when the queue has room: the Task is admitted after the test
    of the capacity, whatever the predicate of the caller says. *)
Lemma run_expired_room s t task w poller d k :
  aborted s = false →
  queue_mutex (base (pool s)) = None →
  threads s !! t
    = Some (client (Some task)
              (s_blocked (TaskPool.poll_predicate poller) (Some d)
               :: s_while_full w :: after_wait ++ k)) →
  d ≤ now s →
  TaskPool.can_enqueue_unlocked (pool s) = true →
  let s' := run (ev_timeout t :: replicate 4 (ev_run t)) s in
  tasks (base (pool s')) = tasks (base (pool s)) ++ [run_task task]
  ∧ history s'
    = [(t, act_push (shared_state task)); (t, act_assert true);
       (t, act_capacity true true); (t, act_expired (poller (now s)));
       (t, act_relock true); (t, act_wake by_timeout)] ++ history s.
Proof.
  destruct s as [[[wks q mx stp] m] fs ths ntf clk ab H]. simpl.
  intros -> -> Hth Hd Hroom. apply lookup_lt_Some in Hth as Hlen.
  change (run (replicate 4 (ev_run t)) ?s)
    with (step (ev_run t) (step (ev_run t) (step (ev_run t)
           (step (ev_run t) s)))).
  fold (mk_state wks q None stp m fs ths ntf clk H).
  assert (∀ P, tasks (base P) = q → max_tasks P = m →
            TaskPool.poll_predicate poller P clk = poller clk) as Hp.
  { intros P Hq Hm. unfold TaskPool.poll_predicate.
    replace (TaskPool.can_enqueue_unlocked P) with true; [apply andb_true_r|].
    rewrite <-Hroom. unfold TaskPool.can_enqueue_unlocked, ThreadPool.size_unlocked.
    by rewrite Hq, Hm. }
  apply Nat.ltb_lt in Hroom. simpl in Hroom.
  unfold ThreadPool.size_unlocked in Hroom. simpl in Hroom.
  next_step step_timeout. next_step step_relock_expired.
  rewrite !Hp by done.
  next_step step_while_room. next_step step_assert. next_step step_push.
  done.
Qed.



(** C2 as stated fails.  The queue of a pool of capacity 1 is full when the
    timed wait of [poll_for] returns on the expiry of its deadline with the
    combined condition false: the Task is not admitted, the loop of
    [task_pool::wait_to_enqueue] tests the capacity and waits again.  And
    no schedule of any bounded pool makes the queue longer than
    [max_tasks]. *)
Lemma timed_poll_overflow_counterexample :
  let s :=
    run (full_queue_schedule ++ expiry_schedule)
      (task_pool_system 1
         [[call_wait (λ _, returned 7); call_wait (λ _, returned 7)];
          [call_poll_for (λ _, false) 1 (λ _, returned 7)]]) in
  (max_tasks (pool s) = 1
   ∧ queued s = [1]
   ∧ own 2 (history s)
     = [act_block; act_pred false true; act_capacity false true;
        act_expired false; act_relock true; act_wake by_timeout;
        act_block; act_pred false true; act_capacity false true;
        act_lock; act_pack 2])
  ∧ ¬ ∃ n clients sched,
        max_tasks (pool (run sched (task_pool_system n clients)))
        < ThreadPool.size_unlocked
            (base (pool (run sched (task_pool_system n clients)))).
Proof.
  split; [done|]. intros (n & clients & sched & Hlt).
  pose proof (capacity_ok_task_pool_system n clients sched) as [Hle _].
  unfold ThreadPool.size_unlocked in Hlt. lia.
Qed.

(** C2 (amended).  When the timed wait of [poll_for] or [poll_until] has
    returned on the expiry of its deadline, the combined condition is not
    what decides: the loop of [task_pool::wait_to_enqueue] tests the
    capacity under the lock.  If the queue has room the Task is admitted,
    whatever the predicate of the caller says; if the queue is full the
    Task is not admitted and the submitter waits again.  In every schedule,
    a client that only makes calls of the [poll] family, timed or not,
    tests the capacity directly after an expired wait, passes the assertion
    and pushes only directly after a test that found room under the lock,
    and the queue is never longer than [max_tasks]. *)
Theorem timed_poll_recheck poller :
  (∀ s t task w d k,
     aborted s = false →
     queue_mutex (base (pool s)) = None →
     threads s !! t
       = Some (client (Some task)
                 (s_blocked (TaskPool.poll_predicate poller) (Some d)
                  :: s_while_full w :: after_wait ++ k)) →
     d ≤ now s →
     TaskPool.can_enqueue_unlocked (pool s) = true →
     let s' := run (ev_timeout t :: replicate 4 (ev_run t)) s in
     tasks (base (pool s')) = tasks (base (pool s)) ++ [run_task task]
     ∧ history s'
       = [(t, act_push (shared_state task)); (t, act_assert true);
          (t, act_capacity true true); (t, act_expired (poller (now s)));
          (t, act_relock true); (t, act_wake by_timeout)] ++ history s)
  ∧ (∀ s t cur w d dl k,
       aborted s = false →
       queue_mutex (base (pool s)) = None →
       threads s !! t
         = Some (client cur
                   (s_blocked (TaskPool.poll_predicate poller) (Some d)
                    :: s_while_full w :: k)) →
       d ≤ now s →
       waiter_body (now s) w = [s_pred (TaskPool.poll_predicate poller) dl] →
       TaskPool.can_enqueue_unlocked (pool s) = false →
       let s' := run (ev_timeout t :: replicate 4 (ev_run t)) s in
       tasks (base (pool s')) = tasks (base (pool s))
       ∧ threads s' !! t
         = Some (client cur
                   (s_blocked (TaskPool.poll_predicate poller) dl
                    :: s_while_full w :: k))
       ∧ history s'
         = [(t, act_block); (t, act_pred false true);
            (t, act_capacity false true); (t, act_expired false);
            (t, act_relock true); (t, act_wake by_timeout)] ++ history s)
  ∧ ∀ n others calls more sched,
      forallb (poll_call true) calls →
      let s := run sched (task_pool_system n (others ++ calls :: more)) in
      let t := client_tid n (length others) in
      ThreadPool.size_unlocked (base (pool s)) ≤ max_tasks (pool s)
      ∧ (∃ cur code, threads s !! t = Some (client cur code))
      ∧ ∀ a b, adjacent a b (own t (history s)) → timed_poll_step a b.
Proof.
  split_and!.
  - intros. by eapply run_expired_room.
  - intros s t cur w d dl k Hab Hmx Hth Hd Hw Hfull.
    destruct (run_expired_full s t cur w poller d dl k)
      as (? & _ & _ & ? & _ & _ & ?); done.
  - intros n others calls more sched Hcalls.
    destruct (poll_client true n others calls more sched) as [Hth Hadj];
      [done|].
    split_and!; [|done|].
    + apply capacity_ok_task_pool_system.
    + intros a b Hab. by apply timed_poll_step_allowed, Hadj.
Qed.

(** The parts of C2 on a pool of one worker: the deadline of client 2
    expires once after the worker has made room, and once while the queue
    is full. *)
Lemma timed_poll_recheck_witness :
  let s0 :=
    task_pool_system 1
      [[call_wait (λ _, returned 7); call_wait (λ _, returned 7)];
       [call_poll_for (λ _, false) 1 (λ _, returned 7)]] in
  let room := run (full_queue_schedule ++ replicate 4 (ev_run 0) ++ [ev_tick]) s0 in
  let full := run (full_queue_schedule ++ [ev_tick]) s0 in
  let sched := full_queue_schedule ++ expiry_schedule in
  (queued room = []
   ∧ queued (run (ev_timeout 2 :: replicate 4 (ev_run 2)) room) = [2])
  ∧ (queued full = [1]
     ∧ queued (run (ev_timeout 2 :: replicate 4 (ev_run 2)) full) = [1])
  ∧ timed_poll_step (act_expired false) (act_capacity false true).
Proof.
  intros s0 room full sched.
  pose proof (timed_poll_recheck (λ _, false)) as (Hroom & Hfull & Hall).
  split_and!.
  - done.
  - unfold queued.
    by rewrite (proj1 (Hroom room 2
      {| shared_state := 2; stored_task := λ _, returned 7 |}
      (cv_wait_for 1 (TaskPool.poll_predicate (λ _, false))) 1 []
      eq_refl eq_refl eq_refl (le_n 1) eq_refl)).
  - done.
  - unfold queued.
    by rewrite (proj1 (Hfull full 2
      (Some {| shared_state := 2; stored_task := λ _, returned 7 |})
      (cv_wait_for 1 (TaskPool.poll_predicate (λ _, false))) 1 (Some 2)
      after_wait eq_refl eq_refl eq_refl (le_n 1) eq_refl eq_refl)).
  - apply (proj2 (proj2 (Hall 1
      [[call_wait (λ _, returned 7); call_wait (λ _, returned 7)]]
      [call_poll_for (λ _, false) 1 (λ _, returned 7)] [] sched I))).
    exists [act_block; act_pred false true],
      [act_relock true; act_wake by_timeout; act_block; act_pred false true;
       act_capacity false true; act_lock; act_pack 2].
    reflexivity.
Defined.





(** * Further properties of the header *)

(** ** The queue of [thread_pool] is not bounded *)

Lemma run_app l1 l2 s : run (l1 ++ l2) s = run l2 (run l1 s).
Proof. revert s. induction l1 as [|e l1 IH]; intros s; [done|]. apply IH. Qed.

Lemma run_enqueues t f N :
  ∀ s cur k,
    aborted s = false →
    queue_mutex (base (pool s)) = None →
    threads s !! t
      = Some (client cur (concat (replicate N (ThreadPool.enqueue f)) ++ k)) →
    let s' := run (replicate (8 * N) (ev_run t)) s in
    queued s' = queued s ++ seq (length (futures s)) N
    ∧ max_tasks (pool s') = max_tasks (pool s)
    ∧ queue_mutex (base (pool s')) = None.
Proof.
  induction N as [|N IH]; intros s cur k Hab Hmx Hth.
  { simpl. by rewrite app_nil_r. }
  replace (8 * S N) with (8 + 8 * N) by lia.
  rewrite replicate_add.
  change (concat (replicate (S N) (ThreadPool.enqueue f)))
    with (ThreadPool.enqueue f ++ concat (replicate N (ThreadPool.enqueue f)))
    in Hth.
  rewrite <-app_assoc in Hth.
  intros s'. unfold s'. rewrite run_app.
  rewrite (run_enqueue s t cur f _ Hab Hmx Hth).
  apply lookup_lt_Some in Hth as Hlt.
  edestruct (IH (enqueue_spec t f (concat (replicate N (ThreadPool.enqueue f)) ++ k) s).2)
    as (Hq & Hm & Hmx'); [done|done|by apply list_lookup_insert_eq|].
  rewrite Hq, Hm, Hmx'. split_and!; try done.
  unfold queued. simpl. rewrite fmap_app, length_app, <-app_assoc. simpl.
  by rewrite Nat.add_1_r.
Qed.

(** X1.  The queue of [thread_pool] has no bound: a client that calls [enqueue]
    [N] times in a row, run alone from a state in which the mutex is free,
    is done after [8 * N] steps whatever the length of the queue, and its
    [N] Tasks are then at the back of the queue in the order of the calls,
    each with a future of its own.  On a new pool with [n] workers the queue
    then holds [N] Tasks, however many workers there are. *)
Theorem enqueue_unbounded t f N :
  (∀ s cur k,
     aborted s = false →
     queue_mutex (base (pool s)) = None →
     threads s !! t
       = Some (client cur (concat (replicate N (ThreadPool.enqueue f)) ++ k)) →
     let s' := run (replicate (8 * N) (ev_run t)) s in
     queued s' = queued s ++ seq (length (futures s)) N
     ∧ ThreadPool.size_unlocked (base (pool s'))
       = ThreadPool.size_unlocked (base (pool s)) + N)
  ∧ ∀ n,
      let s := run (replicate (8 * N) (ev_run (client_tid n 0)))
                 (system n [replicate N (submit noop_waiter f)]) in
      ThreadPool.size_unlocked (base (pool s)) = N
      ∧ TaskPool.get_max_task_num (pool s) = n `max` 1.
Proof.
  assert (∀ s, ThreadPool.size_unlocked (base (pool s)) = length (queued s))
    as Hsize.
  { intros s. unfold queued. by rewrite length_fmap. }
  split.
  - intros s cur k Hab Hmx Hth s'.
    destruct (run_enqueues t f N s cur k Hab Hmx Hth) as (Hq & _).
    split; [done|]. rewrite !Hsize. subst s'. rewrite Hq.
    by rewrite length_app, length_seq.
  - intros n s.
    destruct (run_enqueues (client_tid n 0) f N
                (system n [replicate N (submit noop_waiter f)]) None [])
      as (Hq & Hm & _); [done|done| |].
    + unfold system, boot, client_tid, spawned. simpl.
      rewrite lookup_app_r; rewrite length_replicate; [|lia].
      replace (n `max` 1 + 0 - (n `max` 1) `max` 1) with 0 by lia. simpl.
      rewrite app_nil_r. f_equal. f_equal. unfold program.
      clear. induction N as [|N IH]; [done|].
      cbn [replicate concat]. by rewrite bind_cons, IH.
    + subst s. split.
      * rewrite Hsize, Hq. simpl. by rewrite length_seq.
      * unfold TaskPool.get_max_task_num. by rewrite Hm.
Qed.

(** The solo run of a client that calls [enqueue] three times on a pool of
    one worker. *)
Lemma enqueue_unbounded_witness :
  let s0 := system 1 [replicate 3 (submit noop_waiter (λ _, returned 7))] in
  let s := run (replicate 24 (ev_run 1)) s0 in
  queued s = queued s0 ++ [0; 1; 2]
  ∧ ThreadPool.size_unlocked (base (pool s))
    = ThreadPool.size_unlocked (base (pool s0)) + 3.
Proof.
  intros s0 s.
  apply (proj1 (enqueue_unbounded 1 (λ _, returned 7) 3) s0 None []);
    reflexivity.
Defined.

(** ** The waiter of the caller and the assertion of l.108 *)

Lemma step_aborted e s : aborted s = true → step e s = s.
Proof. intros H. unfold step. by rewrite H. Qed.

Lemma run_aborted sched s : aborted s = true → run sched s = s.
Proof.
  intros H. induction sched as [|e sched IH]; [done|].
  simpl. by rewrite step_aborted.
Qed.

Lemma step_dead t s : threads s !! t = Some dead → step (ev_run t) s = s.
Proof.
  intros H. unfold step, run_thread. rewrite H. by destruct (aborted s).
Qed.

Lemma run_dead t n s :
  threads s !! t = Some dead → run (replicate n (ev_run t)) s = s.
Proof.
  intros H. induction n as [|n IH]; [done|]. simpl. by rewrite step_dead.
Qed.

Section user_steps.
Context (t : tid) (wks : list tid) (q : list closure) (stp : bool) (m : nat).
Context (fs : shared_states) (ths : list thread) (ntf : list tid).
Context (clk : nat) (H : list (tid * action)).
Context (cur : option packaged_task) (k : list stmt).

Lemma step_user_unlock :
  ths !! t = Some (client cur (s_user op_unlock :: k)) →
  step (ev_run t) (mk_state wks q (Some t) stp m fs ths ntf clk H)
  = mk_state wks q None stp m fs (<[t := client cur k]> ths) ntf clk
      ((t, act_user op_unlock) :: H).
Proof. step_tac. Qed.

Lemma step_user_unlock_throw :
  ths !! t = Some (client cur (s_user op_unlock :: k)) →
  step (ev_run t) (mk_state wks q None stp m fs ths ntf clk H)
  = mk_state wks q None stp m fs (<[t := dead]> ths) ntf clk
      ((t, act_throw) :: H).
Proof. step_tac. Qed.

Lemma step_user_lock :
  ths !! t = Some (client cur (s_user op_lock :: k)) →
  step (ev_run t) (mk_state wks q None stp m fs ths ntf clk H)
  = mk_state wks q (Some t) stp m fs (<[t := client cur k]> ths) ntf clk
      ((t, act_user op_lock) :: H).
Proof. step_tac. Qed.

Lemma step_user_lock_throw :
  ths !! t = Some (client cur (s_user op_lock :: k)) →
  step (ev_run t) (mk_state wks q (Some t) stp m fs ths ntf clk H)
  = mk_state wks q None stp m fs (<[t := dead]> ths) ntf clk
      ((t, act_throw) :: H).
Proof. step_tac. Qed.

Lemma step_assert_fail :
  ths !! t = Some (client cur (s_assert_owns :: k)) →
  step (ev_run t) (mk_state wks q None stp m fs ths ntf clk H)
  = abort (mk_state wks q None stp m fs (<[t := dead]> ths) ntf clk
             ((t, act_assert false) :: H)).
Proof. step_tac. Qed.

End user_steps.

(** The mutex as a waiter of thread [t] leaves it, and the thread itself. *)
Lemma run_user_ops t wks q stp m fs ntf clk cur k ops :
  ∀ (owned : bool) ths H,
    ths !! t = Some (client cur ((s_user <$> ops) ++ k)) →
    ∃ H',
      run (replicate (length ops) (ev_run t))
        (mk_state wks q (if owned then Some t else None) stp m fs ths ntf clk H)
      = match waiter_outcome owned ops with
        | Some o' =>
            mk_state wks q (if o' then Some t else None) stp m fs
              (<[t := client cur k]> ths) ntf clk H'
        | None =>
            mk_state wks q None stp m fs (<[t := dead]> ths) ntf clk H'
        end.
Proof.
  induction ops as [|op ops IH]; intros owned ths H Hth.
  { exists H. simpl in *. by rewrite list_insert_id. }
  apply lookup_lt_Some in Hth as Hlt.
  rewrite fmap_cons, <-app_comm_cons in Hth.
  destruct op, owned; simpl.
  - erewrite step_user_unlock by done.
    destruct (IH false (<[t := client cur ((s_user <$> ops) ++ k)]> ths)
                ((t, act_user op_unlock) :: H)) as [H' HH'].
    { by apply list_lookup_insert_eq. }
    exists H'. rewrite HH'. by rewrite !list_insert_insert_eq.
  - erewrite step_user_unlock_throw by done.
    eexists. apply run_dead. by apply list_lookup_insert_eq.
  - erewrite step_user_lock_throw by done.
    eexists. apply run_dead. by apply list_lookup_insert_eq.
  - erewrite step_user_lock by done.
    destruct (IH true (<[t := client cur ((s_user <$> ops) ++ k)]> ths)
                ((t, act_user op_lock) :: H)) as [H' HH'].
    { by apply list_lookup_insert_eq. }
    exists H'. rewrite HH'. by rewrite !list_insert_insert_eq.
Qed.

(** X2.  [thread_pool::wait_to_enqueue] with a waiter of the caller, run
    alone from a state in which the mutex is free (documented precondition: the
    waiter returns with the lock held).  If the waiter returns holding the
    lock, the Task is pushed under the lock.  If it returns without the
    lock, the assertion of l.108 fails: the program is aborted, nothing is
    pushed, and no event changes the state any more.  If an operation of the
    waiter throws, nothing is pushed, the lock is released on the way out
    and the pool can still be used by the other threads. *)
Theorem waiter_decides s t cur ops f k :
  aborted s = false →
  queue_mutex (base (pool s)) = None →
  threads s !! t
    = Some (client cur (thread_pool_call_code (tp_wait_to_enqueue ops f) ++ k)) →
  let s' := run (replicate (3 + length ops + 2) (ev_run t)) s in
  let task := {| shared_state := length (futures s); stored_task := f |} in
  match waiter_outcome true ops with
  | Some true =>
      tasks (base (pool s')) = tasks (base (pool s)) ++ [run_task task]
      ∧ queue_mutex (base (pool s')) = Some t
      ∧ aborted s' = false
  | Some false =>
      tasks (base (pool s')) = tasks (base (pool s))
      ∧ aborted s' = true
      ∧ ∀ sched, run sched s' = s'
  | None =>
      tasks (base (pool s')) = tasks (base (pool s))
      ∧ threads s' !! t = Some dead
      ∧ queue_mutex (base (pool s')) = None
      ∧ aborted s' = false
  end.
Proof.
  destruct s as [[[wks q mx stp] m] fs ths ntf clk ab H]. simpl.
  intros -> -> Hth. apply lookup_lt_Some in Hth as Hlen.
  unfold ThreadPool.wait_to_enqueue in Hth. simpl in Hth.
  rewrite !replicate_add, !run_app.
  change (run (replicate 3 (ev_run t)) ?s)
    with (step (ev_run t) (step (ev_run t) (step (ev_run t) s))).
  change (run (replicate 2 (ev_run t)) ?s)
    with (step (ev_run t) (step (ev_run t) s)).
  fold (mk_state wks q None stp m fs ths ntf clk H).
  next_step step_pack. next_step step_lock. next_step step_wait.
  cbn [waiter_body].
  edestruct (run_user_ops t wks q stp m (fs ++ [None]) ntf clk
               (Some {| shared_state := length fs; stored_task := f |})
               (after_wait ++ k) ops true) as [H' HH'];
    [by apply list_lookup_insert_eq|].
  unfold after_wait in HH'. simpl in HH'. rewrite HH'. clear HH'.
  rewrite !list_insert_insert_eq.
  destruct (waiter_outcome true ops) as [[]|].
  - next_step step_assert. next_step step_push. done.
  - next_step step_assert_fail. rewrite step_aborted by done.
    split_and!; try done. intros sched. by apply run_aborted.
  - assert (∀ H0, step (ev_run t)
              (mk_state wks q None stp m (fs ++ [None]) (<[t := dead]> ths)
                 ntf clk H0)
            = mk_state wks q None stp m (fs ++ [None]) (<[t := dead]> ths)
                ntf clk H0) as Hdead.
    { intros H0. apply step_dead. by apply list_lookup_insert_eq. }
    rewrite !Hdead. split_and!; try done. by apply list_lookup_insert_eq.
Qed.

(** The three cases on a pool of one worker: a waiter that unlocks and
    locks again, one that only unlocks, and one that locks the lock it
    holds. *)
Lemma waiter_decides_witness :
  let f : callable := λ _, returned 7 in
  let sys ops := system 1 [[submit (user_waiter ops) f]] in
  tasks (base (pool (run (replicate 7 (ev_run 1)) (sys [op_unlock; op_lock]))))
  = [run_task {| shared_state := 0; stored_task := f |}]
  ∧ aborted (run (replicate 6 (ev_run 1)) (sys [op_unlock])) = true
  ∧ threads (run (replicate 6 (ev_run 1)) (sys [op_lock])) !! 1 = Some dead.
Proof.
  intros f sys. split_and!.
  - apply (waiter_decides (sys [op_unlock; op_lock]) 1 None
             [op_unlock; op_lock] f [] eq_refl eq_refl eq_refl).
  - apply (waiter_decides (sys [op_unlock]) 1 None [op_unlock] f []
             eq_refl eq_refl eq_refl).
  - apply (waiter_decides (sys [op_lock]) 1 None [op_lock] f []
             eq_refl eq_refl eq_refl).
Defined.

(** ** [task_pool::wait_to_enqueue] with a waiter of the caller *)

(** One round of the loop of l.227-228 on a full queue, with a waiter that
    returns holding the lock. *)
Lemma gate_round t wks q stp m fs ths ntf clk cur ops k H :
  ths !! t = Some (client cur (s_while_full (user_waiter ops) :: k)) →
  m ≤ length q →
  waiter_outcome true ops = Some true →
  ∃ H',
    run (replicate (2 + length ops) (ev_run t))
      (mk_state wks q (Some t) stp m fs ths ntf clk H)
    = mk_state wks q (Some t) stp m fs ths ntf clk H'.
Proof.
  intros Hth Hfull Hops. apply lookup_lt_Some in Hth as Hlt.
  rewrite replicate_add, run_app.
  change (run (replicate 2 (ev_run t)) ?s)
    with (step (ev_run t) (step (ev_run t) s)).
  next_step step_while_full. next_step step_wait. cbn [waiter_body].
  edestruct (run_user_ops t wks q stp m fs ntf clk cur
               (s_while_full (user_waiter ops) :: k) ops true) as [H' HH'];
    [by apply list_lookup_insert_eq|].
  rewrite Hops in HH'. exists H'. rewrite HH', list_insert_insert_eq.
  by rewrite list_insert_id.
Qed.

Lemma gate_rounds t wks q stp m fs ths ntf clk cur ops k r :
  ths !! t = Some (client cur (s_while_full (user_waiter ops) :: k)) →
  m ≤ length q →
  waiter_outcome true ops = Some true →
  ∀ H, ∃ H',
    run (replicate (r * (2 + length ops)) (ev_run t))
      (mk_state wks q (Some t) stp m fs ths ntf clk H)
    = mk_state wks q (Some t) stp m fs ths ntf clk H'.
Proof.
  intros Hth Hfull Hops. induction r as [|r IH]; intros H; [by exists H|].
  change (S r * ?n) with (n + r * n). rewrite replicate_add, run_app.
  destruct (gate_round t wks q stp m fs ths ntf clk cur ops k H)
    as [H1 ->]; [done..|].
  apply IH.
Qed.

(** X3.  [task_pool::wait_to_enqueue] with a waiter of the caller, run
    alone from a state in which the mutex is free.  If the queue has room, the
    waiter is not called at all and the Task is admitted.  If the queue is
    full and the waiter returns holding the lock, the loop calls it round
    after round: after any number of rounds the Task is still not admitted
    and the submitter holds the mutex. *)
Theorem gate_calls_waiter s t cur ops f k :
  aborted s = false →
  queue_mutex (base (pool s)) = None →
  threads s !! t
    = Some (client cur (task_pool_call_code (call_wait_to_enqueue ops f) ++ k)) →
  let task := {| shared_state := length (futures s); stored_task := f |} in
  (TaskPool.can_enqueue_unlocked (pool s) = true →
   let s' := run (replicate 6 (ev_run t)) s in
   tasks (base (pool s')) = tasks (base (pool s)) ++ [run_task task]
   ∧ own t (history s')
     = [act_push (length (futures s)); act_assert true;
        act_capacity true true; act_lock; act_pack (length (futures s))]
       ++ own t (history s))
  ∧ (TaskPool.can_enqueue_unlocked (pool s) = false →
     waiter_outcome true ops = Some true →
     ∀ r,
       let s' := run (replicate (3 + r * (2 + length ops)) (ev_run t)) s in
       tasks (base (pool s')) = tasks (base (pool s))
       ∧ queue_mutex (base (pool s')) = Some t
       ∧ threads s' !! t
         = Some (client (Some task)
                   (s_while_full (user_waiter ops) :: after_wait ++ k))).
Proof.
  intros Hab Hmx Hth task. split.
  - intros Hroom s'.
    destruct (run_gated_room s t cur (user_waiter ops) f k Hab Hmx Hth Hroom)
      as [Hq Hh].
    split; [done|]. subst s'. rewrite Hh.
    exact (own_app_eq t
             [act_push (length (futures s)); act_assert true;
              act_capacity true true; act_lock; act_pack (length (futures s))]
             (history s)).
  - intros Hfull Hops r. rewrite replicate_add, run_app.
    revert Hab Hmx Hth Hfull.
    destruct s as [[[wks q mx stp] m] fs ths ntf clk ab H].
    cbn [aborted queue_mutex base pool threads tasks futures].
    intros -> -> Hth Hfull. apply lookup_lt_Some in Hth as Hlen.
    apply Nat.ltb_ge in Hfull. simpl in Hfull.
    unfold ThreadPool.size_unlocked in Hfull. simpl in Hfull.
    unfold TaskPool.wait_to_enqueue, ThreadPool.wait_to_enqueue in Hth.
    simpl in Hth.
    change (run (replicate 3 (ev_run t)) ?s)
      with (step (ev_run t) (step (ev_run t) (step (ev_run t) s))).
    fold (mk_state wks q None stp m fs ths ntf clk H).
    next_step step_pack. next_step step_lock. next_step step_wait.
    cbn [waiter_body app].
    edestruct (gate_rounds t wks q stp m (fs ++ [None])) as [H' ->];
      [by apply list_lookup_insert_eq|done|done|].
    simpl. split_and!; try done. by apply list_lookup_insert_eq.
Qed.

(** Both cases on a pool of one worker: an empty queue, and a queue that
    client 1 has filled. *)
Lemma gate_calls_waiter_witness :
  let f : callable := λ _, returned 7 in
  let ops := [op_unlock; op_lock] in
  let s_room := task_pool_system 1 [[call_wait_to_enqueue ops f]] in
  let s_full :=
    run (replicate 9 (ev_run 1))
      (task_pool_system 1 [[call_wait f]; [call_wait_to_enqueue ops f]]) in
  tasks (base (pool (run (replicate 6 (ev_run 1)) s_room)))
  = [run_task {| shared_state := 0; stored_task := f |}]
  ∧ queue_mutex (base (pool (run (replicate (3 + 5 * 4) (ev_run 2)) s_full)))
    = Some 2.
Proof.
  intros f ops s_room s_full. split.
  - apply (proj1 (gate_calls_waiter s_room 1 None ops f []
                    eq_refl eq_refl eq_refl) eq_refl).
  - apply (proj2 (gate_calls_waiter s_full 2 None ops f []
                    eq_refl eq_refl eq_refl) eq_refl eq_refl 5).
Defined.

(** ** Invariants of the threads one by one *)

Lemma locally_step (P : bool → thread → Prop) g e s :
  (∀ m o q fs th acts o' q' fs' th' h,
     ltrans m (View o q fs th) acts (View o' q' fs' th') →
     thread_ok g o th h → P o th → P o' th') →
  P false (worker wk_lock) →
  threads_ok g s → locally P s → locally P (step e s).
Proof.
  intros Hstep Hnew Hok [HP Hnone]. unfold locally.
  destruct (step_moves e s) as [(Hth & Hp & _ & _)|Hmv].
  { rewrite Hth, Hp. done. }
  destruct Hmv as (t & _ & th & acts & [o' q' fs' th'] & extra & Hth & Hlt
                   & Hths & Hextra & _ & _ & _ & _ & Ho & Hother).
  split.
  - intros u thu Hu.
    destruct (moved_lookup _ _ _ _ _ _ _ _ Hth Hths Hextra Hu)
      as [[-> ->]|[[Hne Hold]|(Hne & Hold & ->)]]; simpl in *.
    + rewrite Ho. eapply Hstep; [exact Hlt|by apply (proj1 Hok)|by apply HP].
    + rewrite Hother by done. by apply HP.
    + rewrite Hother, Hnone by done. done.
  - intros u Hu. rewrite Hths in Hu. apply lookup_ge_None in Hu.
    rewrite length_app, length_insert in Hu.
    assert (u ≠ t) by (apply lookup_lt_Some in Hth; lia).
    rewrite Hother by done. apply Hnone, lookup_ge_None. lia.
Qed.

Lemma locally_run (P : bool → thread → Prop) g sched s :
  (∀ m o q fs th acts o' q' fs' th' h,
     ltrans m (View o q fs th) acts (View o' q' fs' th') →
     thread_ok g o th h → P o th → P o' th') →
  P false (worker wk_lock) →
  threads_ok g s → locally P s → locally P (run sched s).
Proof.
  intros Hstep Hnew. revert s.
  induction sched as [|e sched IH]; intros s Hok HP; [done|].
  simpl. apply IH; [by apply threads_ok_step|by eapply locally_step].
Qed.

Lemma locally_system (P : bool → thread → Prop) n clients :
  P false (worker wk_lock) →
  (∀ cs, P false (client None (program cs))) →
  locally P (system n clients).
Proof.
  intros Hnew Hcs. split; [|done].
  intros t th Hlk. unfold system, boot in *. simpl in *.
  apply lookup_app_Some in Hlk as [Hlk|[_ Hlk]].
  - unfold spawned in Hlk. by apply lookup_replicate in Hlk as [-> _].
  - apply list_lookup_fmap_Some in Hlk as (code & -> & Hcode).
    apply list_lookup_fmap_Some in Hcode as (cs & -> & _). apply Hcs.
Qed.

(** ** The lock does not leave the critical section *)

Lemma outside_program cs cur : outside (client cur (program cs)) = true.
Proof. by destruct cs as [|[] ?]. Qed.

(** Within the scope of the lock, the statement that follows is within it
    too. *)
Lemma next_inside g o cur st k h :
  thread_ok g o (client cur (st :: k)) h →
  blocked_at_head (client cur (st :: k)) →
  waiter_stmt st ∨ st = s_lock ∨ st = s_assert_owns ∨ st = s_push →
  outside (client cur k) = false.
Proof.
  intros (_ & pg & rest & Hcode & Hpg & _ & _) Htail Hst.
  destruct pg; simpl in *; simplify_eq/=; try done;
    try (by destruct Hst as [?|[?|[?|?]]]).
  - destruct rest as [|[] ?]; simplify_eq/=;
      by destruct Hst as [?|[?|[?|?]]].
  - destruct Hpg as (Hws & _).
    destruct ws as [|st' [|st'' ws]]; simplify_eq/=; try done.
    apply andb_True in Hws as [_ [Hws _]%andb_True].
    apply andb_True in Htail as [Hb _].
    by destruct st''.
Qed.

Lemma forallb_tail {A} (f : A → bool) (l : list A) :
  forallb f l → forallb f (tail l).
Proof. destruct l; [done|]. by intros [_ ?]%andb_True. Qed.

Lemma blocked_at_head_program cur cs : blocked_at_head (client cur (program cs)).
Proof.
  apply forallb_tail. induction cs as [|c cs IH]; [done|].
  rewrite program_cons, forallb_app. apply andb_True. split; [|done].
  by destruct c as [[| | | | |]|].
Qed.

Lemma blocked_at_head_step m o q fs th acts o' q' fs' th' :
  ltrans m (View o q fs th) acts (View o' q' fs' th') →
  blocked_at_head th → blocked_at_head th'.
Proof.
  pose proof (forallb_tail (λ st, negb (blocked_stmt st))) as Htl.
  inversion 1; subst; simpl; try done; intros Hk; try (by apply Htl).
  destruct w as [| | | | |ops]; simpl; try done; try (by apply Htl).
  destruct ops as [|op ops]; simpl; [by apply Htl|].
  rewrite forallb_app. apply andb_True. split; [|done].
  clear. induction ops as [|[] ops IH]; done.
Qed.

Lemma outside_waiter_body clk w cur k :
  outside (client cur (waiter_body clk w ++ k)) → outside (client cur k).
Proof. destruct w as [| | | | |[|??]]; done. Qed.

Lemma lock_scoped_step g m o q fs th acts o' q' fs' th' h :
  ltrans m (View o q fs th) acts (View o' q' fs' th') →
  thread_ok g o th h → lock_scoped o th → lock_scoped o' th'.
Proof.
  intros Hlt Hok [Htail Hout].
  split; [by eapply blocked_at_head_step|].
  inversion Hlt; subst; try done; try (by auto);
    try (by erewrite next_inside; [|done|done|simpl; auto]).
  intros Hw%outside_waiter_body.
  by erewrite next_inside in Hw; [|done|done|simpl; auto].
Qed.

Lemma lock_scoped_run n clients sched :
  locally lock_scoped (run sched (system n clients)).
Proof.
  eapply (locally_run _ false).
  - intros. by eapply lock_scoped_step.
  - done.
  - by apply threads_ok_system.
  - apply locally_system; [done|].
    intros cs. split; [apply blocked_at_head_program|done].
Qed.

(** X4.  In every schedule of a pool, bounded or not, the thread that owns the
    mutex exists and is inside the scope of its [unique_lock]: it is not
    before [lock] or after [unlock], not blocked in a wait on a condition
    variable, not between two calls; it has not finished its calls and has
    not been terminated by an exception.  So the lock is never left held
    when [wait_to_enqueue] returns or throws. *)
Theorem lock_scoped_to_call n clients sched t :
  let s := run sched (system n clients) in
  queue_mutex (base (pool s)) = Some t →
  ∃ th,
    threads s !! t = Some th
    ∧ outside th = false
    ∧ th ≠ dead
    ∧ ∀ cur, th ≠ client cur [].
Proof.
  intros s Hmx. apply owns_lock_self in Hmx.
  destruct (lock_scoped_run n clients sched) as [Hth Hnone]. fold s in Hth, Hnone.
  destruct (threads s !! t) as [th|] eqn:Ht.
  - exists th. destruct (Hth t th Ht) as [_ Hout].
    assert (outside th = false) as Hin.
    { destruct (outside th); [|done]. rewrite Hout in Hmx; done. }
    split_and!; try done.
    + by intros ->.
    + by intros cur ->.
  - rewrite Hnone in Hmx; done.
Qed.

(** The owner of the mutex after the first two steps of the client of a
    pool of one worker. *)
Lemma lock_scoped_to_call_witness :
  let s := run (replicate 2 (ev_run 1))
             (system 1 [[submit noop_waiter (λ _, returned 7)]]) in
  ∃ th,
    threads s !! 1 = Some th
    ∧ outside th = false
    ∧ th ≠ dead
    ∧ ∀ cur, th ≠ client cur [].
Proof.
  apply (lock_scoped_to_call 1 [[submit noop_waiter (λ _, returned 7)]]
           (replicate 2 (ev_run 1)) 1).
  reflexivity.
Defined.

(** ** The wait of [poll] returns only when there is room *)

Lemma admits_poll_predicate poller : admits (TaskPool.poll_predicate poller).
Proof. intros P clk. unfold TaskPool.poll_predicate. by intros [_ ?]%andb_true_iff. Qed.

Lemma code_admits_as_call cur cs :
  code_admits false (client cur (program (as_call <$> cs))).
Proof.
  simpl. induction cs as [|c cs IH]; [done|].
  rewrite fmap_cons, program_cons. apply Forall_app. split; [|done].
  destruct c; repeat constructor; simpl; try done; apply admits_poll_predicate.
Qed.

Lemma code_admits_step m o q fs th acts o' q' fs' th' :
  ltrans m (View o q fs th) acts (View o' q' fs' th') →
  code_admits o th → code_admits o' th'.
Proof.
  inversion 1; subst; simpl; try done;
    try (by intros [? ?]%Forall_cons; repeat constructor).
  intros [Hw Hk]%Forall_cons. apply Forall_app. split; [|done].
  destruct w as [| | | | |ops]; simpl in *; repeat constructor; try done.
  by apply Forall_fmap, Forall_true.
Qed.

Lemma chained_adjacent R h a b : chained R h → adjacent a b h → R b a.
Proof.
  intros Hc (l & r & ->). induction l as [|x l IH].
  - by destruct Hc.
  - apply IH. by destruct Hc.
Qed.

(** Actions that may come after any action. *)
Lemma chained_app (R : action → action → bool) acts h :
  Forall (λ b, ∀ a, R b a) acts → chained R h → chained R (acts ++ h).
Proof.
  induction 1 as [|b acts Hb _ IH]; intros Hh; [done|].
  simpl. split; [|by apply IH].
  destruct (acts ++ h); [done|apply Hb].
Qed.

Lemma room_after_pred_free b :
  (∀ lk, b ≠ act_capacity false lk) → ∀ a, room_after_pred b a.
Proof.
  intros Hb a. destruct a as [| |? ?|[] []| | | | | | | | | | | | | | | | | |];
    try done.
  destruct b as [| |[] ?| | | | | | | | | | | | | | | | | | |]; try done.
  by destruct (Hb locked).
Qed.

Lemma room_ok_step e s :
  threads_ok true s → locally code_admits s → room_ok s → room_ok (step e s).
Proof.
  intros Hok [Hcode _] [Hroom Hch].
  destruct (step_moves e s) as [(Hth & Hp & _ & Hh)|Hmv].
  { unfold room_ok, pred_room. rewrite Hp, Hh. done. }
  destruct Hmv as (t & _ & th & acts & [o' q' fs' th'] & extra & Hth & Hlt
                   & Hths & Hextra & Hq & _ & Hh & Hm & Ho & Hother).
  simpl in *. unfold room_ok, pred_room. rewrite Hq, Hm, Hh.
  apply (proj1 Hok) in Hth as Hokt. apply Hcode in Hth as Hadm.
  unfold view_of in Hlt.
  pose proof (ltrans_tasks _ _ _ _ _ _ _ _ _ _ Hlt) as Hgrow.
  split.
  - intros u r Hown. destruct (decide (u = t)) as [->|Hne].
    + rewrite own_app_eq in Hown. rewrite Ho.
      inversion Hlt; subst; simpl in *; simplify_eq.
      * by apply Hroom in Hown.
      * split; [done|].
        apply Forall_cons in Hadm as [Hp _].
        match goal with
        | HP : p ?P ?clk = true, Hq' : tasks (base ?P) = _,
          Hm' : max_tasks ?P = _ |- _ =>
            apply Hp, Nat.ltb_lt in HP;
            unfold ThreadPool.size_unlocked in HP;
            by rewrite Hq', Hm' in HP
        end.
    + rewrite own_app_ne in Hown by done. rewrite Hother by done.
      destruct (Hroom u r Hown) as [Hu Hlt'].
      split; [done|].
      destruct Hgrow as [?|(task & k & -> & -> & ->)]; [lia|].
      apply thread_ok_at_push in Hokt as [Hown' _].
      destruct Hne. by eapply owns_lock_unique.
  - intros u. destruct (decide (u = t)) as [->|Hne];
      [|by rewrite own_app_ne].
    rewrite own_app_eq. specialize (Hch t).
    inversion Hlt; subst;
      try (apply chained_app; [|done];
           repeat constructor; by apply room_after_pred_free).
    + simpl. split; [|done].
      destruct (own t (history s)) as [|a r] eqn:Hown; [done|].
      destruct a as [| |? ?|[] []| | | | | | | | | | | | | | | | | |]; try done.
      destruct (Hroom t r Hown) as [_ ?]. lia.
    + apply chained_app; [|done].
      apply Forall_cons. split; [by apply room_after_pred_free|].
      apply Forall_reverse, Forall_fmap, Forall_true. intros c. simpl.
      by apply room_after_pred_free.
Qed.

Lemma room_ok_run sched s :
  threads_ok true s → locally code_admits s → room_ok s →
  room_ok (run sched s).
Proof.
  revert s. induction sched as [|e sched IH]; intros s Hok Hadm Hroom; [done|].
  simpl. apply IH.
  - by apply threads_ok_step.
  - eapply locally_step; [|done|exact Hok|done].
    intros. by eapply code_admits_step.
  - by apply room_ok_step.
Qed.

Lemma room_ok_task_pool_system n clients sched :
  room_ok (run sched (task_pool_system n clients)).
Proof.
  apply room_ok_run.
  - apply (threads_ok_task_pool_system n clients []).
  - rewrite task_pool_system_system. split; [|done].
    intros t th Hlk. unfold system, boot in *. simpl in *.
    apply lookup_app_Some in Hlk as [Hlk|[_ Hlk]].
    + unfold spawned in Hlk. by apply lookup_replicate in Hlk as [-> _].
    + apply list_lookup_fmap_Some in Hlk as (code & -> & Hcode).
      apply list_lookup_fmap_Some in Hcode as (cs & -> & Hcs).
      apply list_lookup_fmap_Some in Hcs as (cs' & -> & _).
      apply code_admits_as_call.
  - split; [done|]. intros t. done.
Qed.

(** X5.  In every schedule of a bounded pool whose clients use its public
    members: while the newest action of a submitter is an evaluation of the
    condition of its wait that came out true under the lock, it owns the
    mutex and [can_enqueue_unlocked()] holds; so the test of the capacity
    that follows never finds the queue full.  For a client that only makes
    calls of the [poll] and [wait] families, what directly follows is that
    test, and it finds room: once the wait of l.166-170 returns because its
    condition holds, the loop of l.227-228 is left. *)
Theorem wait_returns_with_room n :
  (∀ clients sched t r,
     let s := run sched (task_pool_system n clients) in
     own t (history s) = act_pred true true :: r →
     queue_mutex (base (pool s)) = Some t
     ∧ TaskPool.can_enqueue_unlocked (pool s) = true)
  ∧ (∀ clients sched t b,
       let s := run sched (task_pool_system n clients) in
       adjacent (act_pred true true) b (own t (history s)) →
       ∀ lk, b ≠ act_capacity false lk)
  ∧ ∀ others calls more sched b,
      let s := run sched (task_pool_system n (others ++ calls :: more)) in
      forallb (poll_call true) calls →
      adjacent (act_pred true true) b
        (own (client_tid n (length others)) (history s)) →
      b = act_capacity true true.
Proof.
  assert (∀ clients sched t b,
            adjacent (act_pred true true) b
              (own t (history (run sched (task_pool_system n clients)))) →
            ∀ lk, b ≠ act_capacity false lk) as Hnot.
  { intros clients sched t b Hadj lk ->.
    destruct (room_ok_task_pool_system n clients sched) as [_ Hch].
    by apply (chained_adjacent _ _ _ _ (Hch t)) in Hadj. }
  split_and!; [|done|].
  - intros clients sched t r s Hown.
    destruct (room_ok_task_pool_system n clients sched) as [Hroom _].
    destruct (Hroom t r Hown) as [Ho Hlt].
    split; [by apply owns_lock_Some|by apply Nat.ltb_lt].
  - intros others calls more sched b s Hcalls Hadj.
    destruct (poll_client true n others calls more sched Hcalls) as [_ Hnext].
    pose proof (Hnot _ _ _ _ Hadj) as Hb.
    apply Hnext, andb_True in Hadj as [H1 H2].
    destruct b; simpl in H1, H2; try done;
      repeat match goal with x : bool |- _ => destruct x end;
      simpl in H1, H2; try done; by edestruct Hb.
Qed.

(** A pool of one worker whose queue is full when client 2 calls [wait]:
    client 2 blocks, the worker takes the Task of client 1 and runs it, and
    client 2 wakes and finds its condition true. *)
Lemma wait_returns_with_room_witness :
  let f : callable := λ _, returned 7 in
  let s0 := task_pool_system 1 [[call_wait f]; [call_wait f]] in
  let sched :=
    replicate 9 (ev_run 1) ++ replicate 6 (ev_run 2) ++ replicate 4 (ev_run 0)
    ++ replicate 3 (ev_run 2) in
  (queue_mutex (base (pool (run sched s0))) = Some 2
   ∧ TaskPool.can_enqueue_unlocked (pool (run sched s0)) = true)
  ∧ (∀ lk, act_capacity true true ≠ act_capacity false lk)
  ∧ act_capacity true true = act_capacity true true.
Proof.
  intros f s0 sched.
  pose proof (wait_returns_with_room 1) as (Hown & Hnot & Hnext).
  assert (adjacent (act_pred true true) (act_capacity true true)
            (own 2 (history (run (sched ++ [ev_run 2]) s0)))) as Hadj.
  { exists [],
      [act_relock false; act_wake by_notify; act_block; act_pred false true;
       act_capacity false true; act_lock; act_pack 1].
    reflexivity. }
  assert (own 2 (history (run sched s0))
          = act_pred true true
            :: [act_relock false; act_wake by_notify; act_block;
                act_pred false true; act_capacity false true; act_lock;
                act_pack 1]) as Hnewest by (vm_compute; reflexivity).
  split_and!.
  - apply (Hown [[call_wait f]; [call_wait f]] sched 2 _ Hnewest).
  - apply (Hown [[call_wait f]; [call_wait f]] sched 2 _ Hnewest).
  - apply (Hnot [[call_wait f]; [call_wait f]] (sched ++ [ev_run 2]) 2 _ Hadj).
  - apply (Hnext [[call_wait f]] [call_wait f] [] (sched ++ [ev_run 2]) _ I Hadj).
Defined.

(** ** Every submission has a future of its own *)

Lemma submseteq_NoDup {A} (l k : list A) : l ⊆+ k → NoDup k → NoDup l.
Proof.
  intros [k' Hk]%submseteq_Permutation. rewrite Hk.
  by intros [? _]%NoDup_app.
Qed.

Lemma submseteq_Forall {A} (P : A → Prop) (l k : list A) :
  l ⊆+ k → Forall P k → Forall P l.
Proof.
  intros [k' Hk]%submseteq_Permutation. rewrite Hk.
  by intros [? _]%Forall_app.
Qed.

Lemma bind_insert_Permutation {A B} (f : A → list B) l i x y :
  l !! i = Some x →
  l ≫= f ≡ₚ f x ++ (delete i l ≫= f)
  ∧ <[i := y]> l ≫= f ≡ₚ f y ++ (delete i l ≫= f).
Proof.
  intros Hi. apply lookup_lt_Some in Hi as Hlt.
  rewrite insert_take_drop, delete_take_drop by done.
  rewrite <-(take_drop_middle l i x) at 1 by done.
  rewrite !bind_app, !bind_cons.
  split; by rewrite Permutation_app_swap_app.
Qed.

Lemma push_first_program cs : push_first (program cs) = false.
Proof.
  induction cs as [|[] cs IH]; [done..|]. by rewrite program_cons.
Qed.

Lemma push_first_waiter_body clk w k :
  push_first (waiter_body clk w ++ k) = push_first k.
Proof.
  destruct w as [| | | | |ops]; try done.
  simpl. induction ops as [|op ops IH]; done.
Qed.

(** After the push, the next statement of that kind is a pack. *)
Lemma thread_ok_pushed g o cur k h :
  thread_ok g o (client cur (s_push :: k)) h → push_first k = false.
Proof.
  intros (_ & pg & rest & Hcode & Hpg & _ & _).
  destruct pg; simpl in *; simplify_eq/=.
  - by destruct rest as [|[] ?].
  - destruct Hpg as (Hws & _). destruct ws as [|[] ?]; simplify_eq/=; done.
  - apply push_first_program.
Qed.

Lemma pending_step g t m o q fs th acts o' q' fs' th' h :
  ltrans m (View o q fs th) acts (View o' q' fs' th') →
  thread_ok g o th h →
  pushed ((λ a, (t, a)) <$> acts) ++ pending th'
    ⊆+ pending th ++ seq (length fs) (length fs' - length fs)
  ∧ length fs ≤ length fs'.
Proof.
  intros Hlt Hok.
  inversion Hlt; subst; rewrite ?closure_call_length, ?length_app;
    (split; [|simpl; lia]);
    rewrite ?Nat.sub_diag, ?app_nil_r;
    try (destruct cur as [task'|]; simpl; by rewrite ?push_first_waiter_body).
  all: simpl; try apply submseteq_nil_l.
  - replace (length fs + 1 - length fs) with 1 by lia.
    destruct cur, (push_first k); simpl; try done; apply submseteq_nil_l.
  - apply thread_ok_pushed in Hok. by rewrite Hok.
  - change (list_fmap ?A ?B ?f ?l) with (f <$> l).
    rewrite list_fmap_compose.
    rewrite <-(app_nil_r (_ <$> reverse _)), pushed_discards.
    by destruct cur.
Qed.

Lemma pushed_app H1 H2 : pushed (H1 ++ H2) = pushed H2 ++ pushed H1.
Proof.
  induction H1 as [|[t a] H1 IH]; simpl; [by rewrite app_nil_r|].
  destruct a; rewrite ?IH, ?app_assoc; done.
Qed.

Lemma pending_spawned extra :
  Forall (λ th, th = worker wk_lock) extra → extra ≫= pending = [].
Proof. induction 1 as [|th extra -> _ IH]; [done|]. by rewrite bind_cons. Qed.

Lemma handles_fresh_step g e s :
  threads_ok g s → handles_fresh s → handles_fresh (step e s).
Proof.
  intros Hok [Hnd Hlt].
  destruct (step_moves e s) as [(Hth & _ & Hf & Hh)|Hmv].
  { unfold handles_fresh, issued. by rewrite Hth, Hf, Hh. }
  destruct Hmv as (t & _ & th & acts & [o' q' fs' th'] & extra & Hth & Hstep
                   & Hths & Hextra & _ & Hf & Hh & _).
  simpl in *. unfold view_of in Hstep.
  apply (proj1 Hok) in Hth as Hokt.
  destruct (pending_step _ t _ _ _ _ _ _ _ _ _ _ _ Hstep Hokt) as [Hsub Hlen].
  destruct (bind_insert_Permutation pending (threads s) t th th' Hth)
    as [Hold Hnew].
  set (fresh := seq (length (futures s)) (length fs' - length (futures s))) in *.
  assert (issued (step e s) ⊆+ issued s ++ fresh) as Hiss.
  { unfold issued.
    rewrite Hh, Hths, pushed_app, bind_app, (pending_spawned extra), app_nil_r
      by done.
    rewrite Hnew, Hold, <-!app_assoc. apply submseteq_skips_l.
    rewrite (Permutation_app_comm _ fresh), !app_assoc.
    by apply submseteq_skips_r. }
  unfold handles_fresh. rewrite Hf. split.
  - eapply submseteq_NoDup; [exact Hiss|].
    apply NoDup_app. split_and!; [done| |apply NoDup_seq].
    intros h Hh1 Hh2%elem_of_seq.
    eapply Forall_forall in Hlt; [|exact Hh1]. lia.
  - eapply submseteq_Forall; [exact Hiss|].
    apply Forall_app. split.
    + eapply Forall_impl; [exact Hlt|]. simpl. lia.
    + apply Forall_forall. intros h Hh'%elem_of_seq. lia.
Qed.

Lemma handles_fresh_run g sched s :
  threads_ok g s → handles_fresh s → handles_fresh (run sched s).
Proof.
  revert s. induction sched as [|e sched IH]; intros s Hok Hfr; [done|].
  simpl. apply IH; [by apply threads_ok_step|by eapply handles_fresh_step].
Qed.

Lemma handles_fresh_system n clients : handles_fresh (system n clients).
Proof.
  assert (issued (system n clients) = []) as Hnil;
    [|unfold handles_fresh; rewrite Hnil; split; constructor].
  unfold issued, system, boot. simpl. rewrite bind_app.
  rewrite pending_spawned; [|by apply Forall_replicate].
  simpl. induction clients as [|cs clients IH]; [done|].
  by rewrite fmap_cons, fmap_cons, bind_cons.
Qed.

(** X6.  Every submission has a future of its own.  In every schedule of a
    pool, bounded or not, the handles of the Tasks pushed so far are
    pairwise distinct, so no Task is pushed twice; each of them names a
    shared state that exists; and no two Tasks in the queue share a
    future. *)
Theorem handles_never_shared n clients sched :
  let s := run sched (system n clients) in
  NoDup (pushed (history s))
  ∧ Forall (λ h, h < length (futures s)) (pushed (history s))
  ∧ NoDup (queued s).
Proof.
  intros s.
  destruct (handles_fresh_run false sched (system n clients)) as [Hnd Hlt].
  { by apply threads_ok_system. }
  { apply handles_fresh_system. }
  fold s in Hnd, Hlt. unfold issued in Hnd, Hlt.
  apply NoDup_app in Hnd as (Hnd & _ & _).
  apply Forall_app in Hlt as [Hlt _].
  split_and!; [done..|].
  assert (fifo_ok s) as Hfifo by (by apply fifo_ok_run).
  unfold fifo_ok in Hfifo. rewrite Hfifo in Hnd.
  by apply NoDup_app in Hnd as (_ & _ & ?).
Qed.

(** ** The waits of [task_pool] keep the precondition of the base class *)

Lemma poll_actions timed h a :
  ordered true h → family_ordered (fam_poll timed) h → a ∈ h →
  a ≠ act_assert false ∧ a ≠ act_throw ∧ ∀ op, a ≠ act_user op.
Proof.
  induction h as [|b h IH]; intros Hord Hfam Hin; [by apply elem_of_nil in Hin|].
  destruct Hord as [Hb Hord], Hfam as [Hb' Hfam].
  apply elem_of_cons in Hin as [->|Hin]; [|by apply IH].
  destruct h as [|a' h]; destruct b; simpl in *; try done;
    by repeat case_match.
Qed.

(** X7.  The waits that [poll], [poll_for], [poll_until], [wait], [wait_for] and
    [wait_until] hand to [wait_to_enqueue] meet its precondition (l.92): in
    every schedule, a client that only makes these calls is never terminated
    by an exception of the lock and never fails the assertion of l.108. *)
Theorem poll_keeps_precondition n others calls more sched :
  forallb (poll_call true) calls →
  let s := run sched (task_pool_system n (others ++ calls :: more)) in
  let t := client_tid n (length others) in
  (∃ cur code, threads s !! t = Some (client cur code))
  ∧ Forall (λ a, a ≠ act_assert false ∧ a ≠ act_throw ∧ ∀ op, a ≠ act_user op)
      (own t (history s)).
Proof.
  intros Hcalls s t.
  assert (family_at (fam_poll true) t s) as (th & Hth & Hfam).
  { unfold s, t. rewrite task_pool_system_system, fmap_app, fmap_cons.
    rewrite <-(length_fmap (fmap (M:=list) as_call) others).
    apply family_at_run, family_at_system.
    induction calls as [|c calls IH]; [done|].
    simpl in *. apply andb_True in Hcalls as [Hc Hcalls].
    apply andb_True. split; [by rewrite <-poll_call_in_family|by apply IH]. }
  pose proof (threads_ok_task_pool_system n (others ++ calls :: more) sched)
    as [Hok _].
  specialize (Hok t th Hth). fold s in Hok.
  destruct th as [|cur code|]; try done.
  split; [by eauto|].
  destruct Hfam as [Hfam _], Hok as [Hok _].
  apply Forall_forall. intros a Ha. by eapply poll_actions.
Qed.

(** A client of a pool of one worker that calls [poll_for] on a full queue
    and whose wait expires. *)
Lemma poll_keeps_precondition_witness :
  let s :=
    run (full_queue_schedule ++ expiry_schedule)
      (task_pool_system 1
         [[call_wait (λ _, returned 7); call_wait (λ _, returned 7)];
          [call_poll_for (λ _, false) 1 (λ _, returned 7)]]) in
  (∃ cur code, threads s !! 2 = Some (client cur code))
  ∧ Forall (λ a, a ≠ act_assert false ∧ a ≠ act_throw ∧ ∀ op, a ≠ act_user op)
      (own 2 (history s)).
Proof.
  apply (poll_keeps_precondition 1
           [[call_wait (λ _, returned 7); call_wait (λ _, returned 7)]]
           [call_poll_for (λ _, false) 1 (λ _, returned 7)] []
           (full_queue_schedule ++ expiry_schedule)).
  reflexivity.
Defined.

(** * The class registry of zobject.c *)

Section zobject_facts.
Context {RBNode mem_t cons_t des_t : Type}.
Implicit Types (h : list (@ZObjClass RBNode mem_t cons_t des_t)).
Implicit Types (s d c : @ZObjClass RBNode mem_t cons_t des_t).
Implicit Types (src dst a p : nat).

Lemma with_payload_self c : with_payload c c = c.
Proof. by destruct c. Qed.

Lemma swapClass_swaps h src dst s d :
  h !! src = Some s → h !! dst = Some d →
  swapClass h src dst
  = Some (<[dst := with_payload s d]> (<[src := with_payload d s]> h)).
Proof.
  intros Hs Hd. apply lookup_lt_Some in Hs as Hls.
  apply lookup_lt_Some in Hd as Hld.
  unfold swapClass, store. rewrite Hs. simpl.
  destruct (decide (src = dst)) as [->|Hne].
  - repeat (rewrite ?list_lookup_insert_eq, ?Hs, ?list_insert_insert_eq
              by (by rewrite ?length_insert); simpl).
    assert (s = d) as -> by congruence. by destruct d.
  - assert (∀ x (h' : list (@ZObjClass RBNode mem_t cons_t des_t)),
              <[src := x]> h' !! dst = h' !! dst) as Hkeep.
    { intros. by apply list_lookup_insert_ne. }
    repeat (rewrite ?Hkeep, ?Hd; simpl;
            rewrite ?list_lookup_insert_eq by (by rewrite ?length_insert);
            simpl; rewrite ?list_insert_insert_eq).
    done.
Qed.

Lemma with_payload_back s d : with_payload (with_payload d s) (with_payload s d) = d.
Proof. by destruct s, d. Qed.

(** X8.  [swapClass] (the callback with which the tree exchanges two nodes)
    is defined whenever both pointers point to nodes.  It exchanges what the
    two nodes say of their class (name, parent, constructor, destructor and
    body) and leaves the links of the tree in every node as they were; the
    other nodes are untouched.  Done twice, it restores the heap, and with
    twice the same pointer it changes nothing. *)
Theorem swapClass_exchanges h src dst s d :
  h !! src = Some s → h !! dst = Some d →
  ∃ h',
    swapClass h src dst = Some h'
    ∧ h' !! src = Some (with_payload d s)
    ∧ h' !! dst = Some (with_payload s d)
    ∧ (∀ a, a ≠ src → a ≠ dst → h' !! a = h !! a)
    ∧ rb_node <$> h' = rb_node <$> h
    ∧ swapClass h' src dst = Some h
    ∧ (src = dst → h' = h).
Proof.
  intros Hs Hd. apply lookup_lt_Some in Hs as Hls.
  apply lookup_lt_Some in Hd as Hld.
  eexists. split; [by apply swapClass_swaps|].
  set (h' := <[dst := with_payload s d]> (<[src := with_payload d s]> h)).
  assert (h' !! src = Some (with_payload d s)) as Hs'.
  { unfold h'. destruct (decide (src = dst)) as [->|Hne].
    - rewrite list_lookup_insert_eq by by rewrite length_insert.
      congruence.
    - rewrite list_lookup_insert_ne by done.
      by rewrite list_lookup_insert_eq. }
  assert (h' !! dst = Some (with_payload s d)) as Hd'.
  { unfold h'. by rewrite list_lookup_insert_eq by by rewrite length_insert. }
  assert (∀ a, a ≠ src → a ≠ dst → h' !! a = h !! a) as Hother.
  { intros a ? ?. unfold h'. by rewrite !list_lookup_insert_ne. }
  assert (∀ h2 : list (@ZObjClass RBNode mem_t cons_t des_t),
            h2 !! src = Some s → h2 !! dst = Some d →
            (∀ a, a ≠ src → a ≠ dst → h2 !! a = h !! a) →
            length h2 = length h → h2 = h) as Heq.
  { intros h2 H1 H2 H3 Hlen. apply list_eq. intros a.
    destruct (decide (a = src)) as [->|?]; [congruence|].
    destruct (decide (a = dst)) as [->|?]; [congruence|]. by apply H3. }
  split_and!; try done.
  - unfold h'. rewrite !list_fmap_insert. simpl.
    rewrite (list_insert_id (rb_node <$> h) src);
      [|by rewrite list_lookup_fmap, Hs].
    apply list_insert_id. by rewrite list_lookup_fmap, Hd.
  - rewrite (swapClass_swaps h' src dst _ _ Hs' Hd'). f_equal.
    rewrite !with_payload_back.
    assert (length h' = length h) as Hlen.
    { unfold h'. by rewrite !length_insert. }
    apply Heq.
    + destruct (decide (src = dst)) as [->|Hne].
      * rewrite list_lookup_insert_eq by by rewrite !length_insert, Hlen.
        congruence.
      * rewrite list_lookup_insert_ne by done.
        by rewrite list_lookup_insert_eq by by rewrite ?length_insert, Hlen.
    + by rewrite list_lookup_insert_eq by by rewrite !length_insert, Hlen.
    + intros a ? ?. rewrite !list_lookup_insert_ne by done. by apply Hother.
    + by rewrite !length_insert.
  - intros ->. assert (s = d) as -> by congruence. unfold h'. rewrite list_insert_insert_eq, with_payload_self.
    by apply list_insert_id.
Qed.

Lemma zGetClass_loop_nearest h name :
  parents_first h →
  ∀ (c : nat) fuel,
    c < length h → c < fuel →
    (∃ a cls,
       nearest h name c a ∧ h !! a = Some cls
       ∧ zGetClass_loop fuel h c name = Some (Some (class_body cls)))
    ∨ (zGetClass_loop fuel h c name = Some None ∧ ∀ a, ¬ nearest h name c a).
Proof.
  intros Hpf c. induction c as [c IH] using lt_wf_ind.
  intros [|fuel] Hc Hfuel; [lia|].
  destruct (lookup_lt_is_Some_2 h c Hc) as [cls Hcls]. simpl. rewrite Hcls. simpl.
  destruct (String.eqb_spec (class_name cls) name) as [Heq|Hne]; simpl.
  { left. exists c, cls. split_and!; try done. by eapply nearest_here. }
  destruct (parent cls) as [p|] eqn:Hp.
  - pose proof (Hpf c cls p Hcls Hp) as Hlt.
    destruct (IH p Hlt fuel) as [(a & cls' & Hn & Ha & Hr)|[Hr Hnone]]; [lia..| |].
    + left. exists a, cls'. split_and!; try done. by eapply nearest_up.
    + right. split; [done|]. intros a Hn.
      inversion Hn; subst; simplify_eq. by eapply Hnone.
  - right. split; [done|]. intros a Hn. inversion Hn; subst; simplify_eq.
Qed.

(** X9.  [zGetClass] on a heap in which every class was registered after its
    parent.  With a [NULL] name it returns the body of the class of the
    instance.  With a name it stops within as many steps as the instance's
    class is deep, and returns the body of the nearest class of that name
    on the way from the class of the instance up through its parents, or
    [NULL] when there is none. *)
Theorem zGetClass_nearest_class h (ins_class : nat) fuel :
  parents_first h → ins_class < length h →
  (∃ cls,
     h !! ins_class = Some cls
     ∧ zGetClass fuel h ins_class None = Some (Some (class_body cls)))
  ∧ ∀ name,
      ins_class < fuel →
      (∃ a cls,
         nearest h name ins_class a ∧ h !! a = Some cls
         ∧ zGetClass fuel h ins_class (Some name)
           = Some (Some (class_body cls)))
      ∨ (zGetClass fuel h ins_class (Some name) = Some None
         ∧ ∀ a, ¬ nearest h name ins_class a).
Proof.
  intros Hpf Hc. split.
  - destruct (lookup_lt_is_Some_2 h ins_class Hc) as [cls Hcls].
    exists cls. split; [done|]. simpl. by rewrite Hcls.
  - intros name Hfuel. by apply zGetClass_loop_nearest.
Qed.

End zobject_facts.

(** Three classes, each the parent of the next: the nodes of the first and
    the last are exchanged; and the body of [Shape] is found from
    [Circle]. *)
Lemma swapClass_exchanges_witness :
  let h : list (@ZObjClass nat nat nat nat) :=
    [ {| class_name := "Object"; parent := None; constructor := 0;
         destructor := 0; class_body := 10; rb_node := 100 |};
      {| class_name := "Shape"; parent := Some 0; constructor := 1;
         destructor := 1; class_body := 20; rb_node := 101 |};
      {| class_name := "Circle"; parent := Some 1; constructor := 2;
         destructor := 2; class_body := 30; rb_node := 102 |} ] in
  ∃ h',
    swapClass h 0 2 = Some h'
    ∧ (class_name <$> h') = ["Circle"; "Shape"; "Object"]
    ∧ (rb_node <$> h') = [100; 101; 102].
Proof.
  intros h.
  destruct (swapClass_exchanges h 0 2 _ _ eq_refl eq_refl)
    as (h' & Hsw & _ & _ & _ & Hrb & _).
  exists h'. split; [done|]. split; [|done].
  vm_compute in Hsw. by injection Hsw as <-.
Defined.

Lemma zGetClass_nearest_class_witness :
  let h : list (@ZObjClass nat nat nat nat) :=
    [ {| class_name := "Object"; parent := None; constructor := 0;
         destructor := 0; class_body := 10; rb_node := 100 |};
      {| class_name := "Shape"; parent := Some 0; constructor := 1;
         destructor := 1; class_body := 20; rb_node := 101 |};
      {| class_name := "Circle"; parent := Some 1; constructor := 2;
         destructor := 2; class_body := 30; rb_node := 102 |} ] in
  zGetClass 3 h 2 None = Some (Some 30)
  ∧ zGetClass 3 h 2 (Some "Shape") = Some (Some 20)
  ∧ zGetClass 3 h 2 (Some "Square") = Some None.
Proof.
  intros h.
  assert (parents_first h) as Hpf.
  { intros [|[|[|i]]] c p Hc Hp; simplify_eq/=; lia. }
  destruct (zGetClass_nearest_class h 2 3 Hpf) as [(cls & Hcls & Hnull) Hname];
    [simpl; lia|].
  split_and!.
  - by simplify_eq/=.
  - destruct (Hname "Shape") as [(a & cls' & _ & _ & Hr)|[Hr _]]; [lia|..];
      vm_compute in Hr; by simplify_eq.
  - destruct (Hname "Square") as [(a & cls' & _ & _ & Hr)|[Hr _]]; [lia|..];
      vm_compute in Hr; by simplify_eq.
Defined.
